(** * Hazard-aware routing (src/routing.py): a shallow embedding and its properties

    The module under study loads a road graph (OSMnx, cached file or a
    synthetic grid), removes the edges that lie in hazard polygons and
    computes shortest, fastest and safest routes with NetworkX.

    Conventions of the embedding.
    - Python numbers are idealised as rationals in lowest terms ([Qc]), so
      that numeric equality is Leibniz equality: [1] and [1.0] are the same
      number, as they are the same dictionary key in Python.  The rounding
      of binary64 is not modelled: the results on the searches are about
      the exact values, and where the rounding decides between two routes
      the program may take the other ([Binary64.rounded_times_reorder]).
    - A NetworkX graph is its class (the two flags), its node table and its
      edges in the order [G.edges] reports them; parallel edges of a
      multigraph appear in the order of their keys.
    - A Python exception is a value of [exn]; code that may raise returns a
      [result]; [try ... except Exception] is a match on it.
    - shapely and OSMnx are interfaces ([Shapely], [OSMnx]): the program is
      verified for every implementation of them. *)

From Stdlib Require Import List ZArith QArith Qcanon Qcabs Bool Lia.
From Stdlib Require PrimFloat.
Import ListNotations.
Close Scope Qc_scope.
Close Scope Q_scope.

Set Implicit Arguments.

(** ** Numbers and coordinates *)

Definition num := Qc.

Definition Zq (z : Z) : num := Q2Qc (inject_Z z).

Definition num_eqb (a b : num) : bool := Qeq_bool a b.

Definition num_ltb (a b : num) : bool :=
  match Qccompare a b with Lt => true | _ => false end.

(** A coordinate is the pair (lat, lon) the callers pass around; a shapely
    point is the pair (x, y). *)
Definition Coord := (num * num)%type.
Definition Point := (num * num)%type.

(** ** Node identifiers

    OSM graphs use integer identifiers, the grid graph uses the tuple
    (row, column); [isinstance(node, tuple)] tells them apart. *)
Inductive node : Type :=
| NInt (i : Z)
| NTuple (c : Coord).

Definition node_eqb (a b : node) : bool :=
  match a, b with
  | NInt i, NInt j => Z.eqb i j
  | NTuple (a1, a2), NTuple (b1, b2) => num_eqb a1 b1 && num_eqb a2 b2
  | _, _ => false
  end.

Definition isinstance_tuple (n : node) : bool :=
  match n with NTuple _ => true | NInt _ => false end.

(** ** Exceptions *)

Inductive exn : Type :=
| KeyError | TypeError | ValueError
| NodeNotFound | NetworkXNoPath | NetworkXError
| IOError.

Inductive result (A : Type) : Type :=
| Ok (a : A)
| Raise (e : exn).
Arguments Ok {A} a.
Arguments Raise {A} e.

Definition bind {A B : Type} (r : result A) (k : A -> result B) : result B :=
  match r with
  | Ok a => k a
  | Raise e => Raise e
  end.

Notation "'let!' x ':=' r 'in' k" := (bind r (fun x => k))
  (at level 10, x name, r at level 100, k at level 200).

(** The outcome of a loop that is run with fuel. *)
Inductive run (A : Type) : Type :=
| Done (a : A)
| OutOfFuel.
Arguments Done {A} a.
Arguments OutOfFuel {A}.

(** [d.get(key, default)] on an optional attribute. *)
Definition get {A : Type} (o : option A) (default : A) : A :=
  match o with Some a => a | None => default end.

(** [d[key]]: raises [KeyError] when the attribute is absent. *)
Definition getitem {A : Type} (o : option A) : result A :=
  match o with Some a => Ok a | None => Raise KeyError end.

(** ** The shapely interface: an edge geometry has a centroid, a polygon
    decides whether it contains a point. *)
Class Shapely : Type := {
  Geometry : Type;
  Polygon : Type;
  centroid : Geometry -> Point;
  contains : Polygon -> Point -> bool
}.

Section Graphs.

Context {Sh : Shapely}.

(** ** Graphs *)

Record node_attr : Type := {
  attr_x : option num;
  attr_y : option num
}.

(** The attribute dictionary of an edge.  [d_time] and [d_safe_weight] are
    the keys the searches write. *)
Record edge_data : Type := {
  d_length : option num;
  d_speed_kph : option num;
  d_hazard_penalty : option num;
  d_geometry : option Geometry;
  d_time : option num;
  d_safe_weight : option num
}.

Record edge : Type := {
  eu : node;
  ev : node;
  ekey : Z;
  edata : edge_data
}.

Record graph : Type := {
  is_multigraph : bool;
  is_directed : bool;
  nodes : list (node * node_attr);
  edges : list edge
}.

(** [G.nodes[n]] *)
Fixpoint lookup_node (l : list (node * node_attr)) (n : node) : result node_attr :=
  match l with
  | [] => Raise KeyError
  | (m, a) :: r => if node_eqb m n then Ok a else lookup_node r n
  end.

Definition nodes_getitem (G : graph) (n : node) : result node_attr :=
  lookup_node (nodes G) n.

(** [n in G] *)
Definition has_node (G : graph) (n : node) : bool :=
  existsb (fun p => node_eqb (fst p) n) (nodes G).

(** ** Path materialisation: [_nodes_to_coords] *)

(** One iteration of the loop body: the coordinate appended for [nd]. *)
Definition coord_of_node (G : graph) (origin : Coord) (nd : node) : Coord :=
  match nd with
  | NTuple c => c
  | NInt _ =>
      match nodes_getitem G nd with
      | Ok a => (get (attr_y a) (fst origin), get (attr_x a) (snd origin))
      | Raise _ => origin
      end
  end.

Definition _nodes_to_coords (G : graph) (path : list node)
  (origin target : Coord) : list Coord :=
  let coords :=
    fold_left (fun coords nd => coords ++ [coord_of_node G origin nd]) path [] in
  match coords with
  | [] => [origin; target]
  | _ :: _ => coords
  end.

(** [grid_route_fallback] *)
Definition grid_route_fallback (origin target : Coord) : list Coord :=
  [origin; target].

(** ** Edge removal: [G.remove_edge(u, v)]

    [connects G u v e]: the edge [e] is stored under [G._adj[u][v]]. *)
Definition connects (G : graph) (u v : node) (e : edge) : bool :=
  (node_eqb (eu e) u && node_eqb (ev e) v)
  || (negb (is_directed G) && node_eqb (eu e) v && node_eqb (ev e) u).

(** Drops the last element of [l] that satisfies [p]; [None] when there is
    none. *)
Fixpoint remove_last {A : Type} (p : A -> bool) (l : list A) : option (list A) :=
  match l with
  | [] => None
  | x :: r =>
      match remove_last p r with
      | Some r' => Some (x :: r')
      | None => if p x then Some r else None
      end
  end.

Definition set_edges (G : graph) (es : list edge) : graph :=
  {| is_multigraph := is_multigraph G;
     is_directed := is_directed G;
     nodes := nodes G;
     edges := es |}.

(** Called without a key, [remove_edge] removes the edge between [u] and
    [v]; on a multigraph "if there are multiple edges, removes the last edge
    added" (the key dictionary's [popitem]).  [NetworkXError] when [u] and
    [v] are not adjacent. *)
Definition remove_edge (G : graph) (u v : node) : result graph :=
  match remove_last (connects G u v) (edges G) with
  | Some es => Ok (set_edges G es)
  | None => Raise NetworkXError
  end.

(** ** Hazard edge filter: [block_edges_by_hazards] *)

(** The point tested for an edge (the local [midpoint]): lines 40-44. *)
Definition edge_midpoint (G : graph) (u v : node) (data : edge_data) : result Point :=
  match d_geometry data with
  | Some g => Ok (centroid g)
  | None =>
      let! nu := nodes_getitem G u in
      let! xu := getitem (attr_x nu) in
      let! nv := nodes_getitem G v in
      let! xv := getitem (attr_x nv) in
      let! nu' := nodes_getitem G u in
      let! yu := getitem (attr_y nu') in
      let! nv' := nodes_getitem G v in
      let! yv := getitem (attr_y nv') in
      Ok ((xu + xv) / Zq 2, (yu + yv) / Zq 2)%Qc
  end.

(** The inner loop, lines 45-49: the first polygon that contains the
    midpoint removes the edge, counts it and breaks. *)
Fixpoint test_polygons (polys : list Polygon) (midpoint : Point)
  (u v : node) (st : graph * Z) : result (graph * Z) :=
  match polys with
  | [] => Ok st
  | poly :: rest =>
      if contains poly midpoint then
        let! G' := remove_edge (fst st) u v in
        Ok (G', (snd st + 1)%Z)
      else test_polygons rest midpoint u v st
  end.

(** The body of the outer loop with its [try ... except]: an exception
    leaves the graph and the counter as they were. *)
Definition block_step (hazard_polygons : list Polygon) (st : graph * Z)
  (e : edge) : graph * Z :=
  match
    (let! midpoint := edge_midpoint (fst st) (eu e) (ev e) (edata e) in
     test_polygons hazard_polygons midpoint (eu e) (ev e) st)
  with
  | Ok st' => st'
  | Raise _ => st
  end.

(** The loop runs over [list(G.edges(data=True))], a snapshot taken before
    the first removal.  The result is the graph after the call (the
    argument is mutated in place) and the returned count. *)
Definition block_edges_by_hazards (G : option graph)
  (hazard_polygons : option (list Polygon)) : option graph * Z :=
  match G, hazard_polygons with
  | Some g, Some polys =>
      let '(g', blocked) := fold_left (block_step polys) (edges g) (g, 0%Z) in
      (Some g', blocked)
  | _, _ => (G, 0%Z)
  end.

(** ** Derived edge weights *)

Definition set_time (d : edge_data) (t : num) : edge_data :=
  {| d_length := d_length d; d_speed_kph := d_speed_kph d;
     d_hazard_penalty := d_hazard_penalty d; d_geometry := d_geometry d;
     d_time := Some t; d_safe_weight := d_safe_weight d |}.

Definition set_safe_weight (d : edge_data) (w : num) : edge_data :=
  {| d_length := d_length d; d_speed_kph := d_speed_kph d;
     d_hazard_penalty := d_hazard_penalty d; d_geometry := d_geometry d;
     d_time := d_time d; d_safe_weight := Some w |}.

Definition set_edata (e : edge) (d : edge_data) : edge :=
  {| eu := eu e; ev := ev e; ekey := ekey e; edata := d |}.

(** Lines 77-81: the value stored under ["time"]. *)
Definition travel_time (data : edge_data) : num :=
  let speed := get (d_speed_kph data) (Zq 30) in
  match d_length data with
  | Some len =>
      if num_ltb (Zq 0) speed
      then (len / (speed * Zq 1000 / Zq 3600))%Qc
      else (get (d_length data) (Zq 100) / Zq 10)%Qc
  | None => (get (d_length data) (Zq 100) / Zq 10)%Qc
  end.

(** Lines 98-100: the value stored under ["safe_weight"]. *)
Definition safe_cost (data : edge_data) : num :=
  let hazard_penalty := get (d_hazard_penalty data) (Zq 0) in
  let len := get (d_length data) (Zq 100) in
  (len * (Zq 1 + hazard_penalty))%Qc.

(** [G.edges(keys=True, data=True)]: only the edge view of a multigraph
    takes [keys]; on a [Graph] or [DiGraph] the call is a [TypeError]. *)
Definition edges_keys_data (G : graph) : result (list edge) :=
  if is_multigraph G then Ok (edges G) else Raise TypeError.

Definition annotate (f : edge_data -> edge_data) (G : graph) : result graph :=
  let! es := edges_keys_data G in
  Ok (set_edges G (map (fun e => set_edata e (f (edata e))) es)).

Definition annotate_time : graph -> result graph :=
  annotate (fun data => set_time data (travel_time data)).

Definition annotate_safe_weight : graph -> result graph :=
  annotate (fun data => set_safe_weight data (safe_cost data)).

(** ** NetworkX's weighted search: [nx.shortest_path(G, s, t, weight=...)]

    The default method, Dijkstra's algorithm, as [_dijkstra_multisource]
    runs it: a heap of (distance, counter, node), the dictionaries [dist]
    (final distances), [seen] (best distance so far) and [paths]. *)

(** Dictionaries keyed by nodes. *)
Fixpoint dget {V : Type} (d : list (node * V)) (k : node) : option V :=
  match d with
  | [] => None
  | (k', v) :: r => if node_eqb k' k then Some v else dget r k
  end.

Fixpoint dset {V : Type} (d : list (node * V)) (k : node) (v : V) : list (node * V) :=
  match d with
  | [] => [(k, v)]
  | (k', v') :: r => if node_eqb k' k then (k', v) :: r else (k', v') :: dset r k v
  end.

(** The entries of [G._adj[v]] before grouping: one per incident edge. *)
Definition incident (G : graph) (v : node) : list (node * edge_data) :=
  flat_map (fun e =>
    if node_eqb (eu e) v then [(ev e, edata e)]
    else if negb (is_directed G) && node_eqb (ev e) v then [(eu e, edata e)]
    else []) (edges G).

Fixpoint group_add (u : node) (d : edge_data)
  (acc : list (node * list edge_data)) : list (node * list edge_data) :=
  match acc with
  | [] => [(u, [d])]
  | (w, ds) :: r =>
      if node_eqb w u then (w, ds ++ [d]) :: r else (w, ds) :: group_add u d r
  end.

(** [G._adj[v].items()]: each neighbour once, with the attribute
    dictionaries of the edges to it (one for a simple graph, one per key
    for a multigraph).  Neighbours come in the order of the edge list;
    the order only decides which of several equally cheap paths is
    found. *)
Definition adj (G : graph) (v : node) : list (node * list edge_data) :=
  fold_left (fun acc p => group_add (fst p) (snd p) acc) (incident G v) [].

(** The name of a weight attribute is its accessor. *)
Definition weight_key := edge_data -> option num.

(** [min] of a non-empty sequence (the first smallest element). *)
Fixpoint min_from (x : num) (l : list num) : num :=
  match l with
  | [] => x
  | y :: r => min_from (if num_ltb y x then y else x) r
  end.

(** [_weight_function]: [min(attr.get(weight, 1) for attr in d.values())];
    on a simple graph the minimum runs over the single dictionary. *)
Definition edge_cost (weight : weight_key) (ds : list edge_data) : num :=
  match map (fun attr => get (weight attr) (Zq 1)) ds with
  | [] => Zq 1
  | c :: cs => min_from c cs
  end.

Definition weighted_adj (G : graph) (weight : weight_key) (v : node)
  : list (node * num) :=
  map (fun p => (fst p, edge_cost weight (snd p))) (adj G v).

Definition entry := (num * nat * node)%type.

(** Order of the heap entries: by distance, then by counter. *)
Definition entry_ltb (a b : entry) : bool :=
  let '(d1, c1, _) := a in
  let '(d2, c2, _) := b in
  num_ltb d1 d2 || (num_eqb d1 d2 && Nat.ltb c1 c2).

(** [heappop]: the smallest entry and the remaining ones. *)
Fixpoint pop_min (l : list entry) : option (entry * list entry) :=
  match l with
  | [] => None
  | x :: r =>
      match pop_min r with
      | None => Some (x, [])
      | Some (m, r') => if entry_ltb m x then Some (m, x :: r') else Some (x, r)
      end
  end.

Record dstate : Type := {
  dist : list (node * num);
  seen : list (node * num);
  fringe : list entry;
  paths : list (node * list node);
  counter : nat
}.

Definition set_fringe (st : dstate) (f : list entry) : dstate :=
  {| dist := dist st; seen := seen st; fringe := f;
     paths := paths st; counter := counter st |}.

Definition set_dist (st : dstate) (v : node) (d : num) : dstate :=
  {| dist := dset (dist st) v d; seen := seen st; fringe := fringe st;
     paths := paths st; counter := counter st |}.

(** [seen[u] = vu_dist; push(fringe, (vu_dist, next(c), u));
     paths[u] = paths[v] + [u]] *)
Definition push_node (st : dstate) (v u : node) (vu_dist : num) : result dstate :=
  let! pv := getitem (dget (paths st) v) in
  Ok {| dist := dist st;
        seen := dset (seen st) u vu_dist;
        fringe := (vu_dist, counter st, u) :: fringe st;
        paths := dset (paths st) u (pv ++ [u]);
        counter := S (counter st) |}.

(** The body of [for u, e in G_succ[v].items()]. *)
Definition relax (v : node) (dv : num) (st : dstate) (uc : node * num)
  : result dstate :=
  let (u, cost) := uc in
  let vu_dist := (dv + cost)%Qc in
  match dget (dist st) u with
  | Some u_dist =>
      if num_ltb vu_dist u_dist then Raise ValueError else Ok st
  | None =>
      match dget (seen st) u with
      | None => push_node st v u vu_dist
      | Some s => if num_ltb vu_dist s then push_node st v u vu_dist else Ok st
      end
  end.

Fixpoint relax_all (v : node) (dv : num) (nbrs : list (node * num))
  (st : dstate) : result dstate :=
  match nbrs with
  | [] => Ok st
  | uc :: r => let! st' := relax v dv st uc in relax_all v dv r st'
  end.

(** [while fringe: ...] *)
Fixpoint dijkstra_loop (fuel : nat) (succ : node -> list (node * num))
  (target : node) (st : dstate) : run (result dstate) :=
  match fuel with
  | O => OutOfFuel
  | S fuel' =>
      match pop_min (fringe st) with
      | None => Done (Ok st)
      | Some ((d, _, v), rest) =>
          let st1 := set_fringe st rest in
          match dget (dist st1) v with
          | Some _ => dijkstra_loop fuel' succ target st1
          | None =>
              let st2 := set_dist st1 v d in
              if node_eqb v target then Done (Ok st2)
              else
                match relax_all v d (succ v) st2 with
                | Raise e => Done (Raise e)
                | Ok st3 => dijkstra_loop fuel' succ target st3
                end
          end
      end
  end.

Definition dijkstra_init (source : node) : dstate :=
  {| dist := []; seen := [(source, Zq 0)];
     fringe := [(Zq 0, O, source)];
     paths := [(source, [source])]; counter := 1 |}.

(** Every iteration either drops a heap entry or finalises a node and
    pushes at most one entry per incident edge: this many iterations are
    enough (see [dijkstra_loop_fuel]). *)
Definition search_fuel (G : graph) : nat :=
  2 * length (edges G) + 2.

Definition shortest_path (G : graph) (source target : node)
  (weight : weight_key) : run (result (list node)) :=
  if negb (has_node G source) then Done (Raise NodeNotFound)
  else if node_eqb target source then Done (Ok [target])
  else
    match dijkstra_loop (search_fuel G) (weighted_adj G weight) target
            (dijkstra_init source) with
    | OutOfFuel => OutOfFuel
    | Done (Raise e) => Done (Raise e)
    | Done (Ok st) =>
        match dget (paths st) target, dget (dist st) target with
        | Some p, Some _ => Done (Ok p)
        | _, _ => Done (Raise NetworkXNoPath)
        end
    end.

(** ** The fallback grid: [build_grid_graph] *)

Definition no_attr : node_attr := {| attr_x := None; attr_y := None |}.

Definition no_data : edge_data :=
  {| d_length := None; d_speed_kph := None; d_hazard_penalty := None;
     d_geometry := None; d_time := None; d_safe_weight := None |}.

Definition grid_node (i j : nat) : node :=
  NTuple (Zq (Z.of_nat i), Zq (Z.of_nat j)).

Definition grid_edge (u v : node) : edge :=
  {| eu := u; ev := v; ekey := 0; edata := no_data |}.

(** [nx.grid_2d_graph(m, n)]: an undirected simple graph on the nodes
    (i, j), every node joined to the next one in its column and in its
    row.  The edges are listed as [G.edges] reports them: node by node,
    each edge at its first endpoint. *)
Definition grid_2d_graph (m n : nat) : graph :=
  {| is_multigraph := false;
     is_directed := false;
     nodes :=
       flat_map (fun i => map (fun j => (grid_node i j, no_attr)) (seq 0 n))
         (seq 0 m);
     edges :=
       flat_map (fun i =>
         flat_map (fun j =>
           (if S i <? m then [grid_edge (grid_node i j) (grid_node (S i) j)]
            else [])
           ++ (if S j <? n then [grid_edge (grid_node i j) (grid_node i (S j))]
               else []))
           (seq 0 n))
         (seq 0 m) |}.

Definition set_length (d : edge_data) (l : num) : edge_data :=
  {| d_length := Some l; d_speed_kph := d_speed_kph d;
     d_hazard_penalty := d_hazard_penalty d; d_geometry := d_geometry d;
     d_time := d_time d; d_safe_weight := d_safe_weight d |}.

Definition build_grid_graph (size : nat) : graph :=
  let G := grid_2d_graph size size in
  set_edges G (map (fun e => set_edata e (set_length (edata e) (Zq 1))) (edges G)).

End Graphs.

(** ** The environment: OSMnx and the cache file

    [nearest_nodes] is [None] when the installed OSMnx has no such
    function ([hasattr(ox, 'nearest_nodes')] is false); it reads the node
    table only.  [path_exists] is [os.path.exists(DATA_PATH)] and
    [load_graphml] the outcome of reading that file. *)
Class OSMnx {Sh : Shapely} : Type := {
  nearest_nodes : option (list (node * node_attr) -> num -> num -> result node);
  graph_from_point : Coord -> num -> result graph;
  save_graphml : graph -> result unit;
  load_graphml : result graph;
  path_exists : bool
}.

Section Routing.

Context {Sh : Shapely} {O : OSMnx}.

(** ** Graph acquisition: [load_graph] *)

Definition load_graph (online : bool) (center : Coord) (dist : num)
  : result graph :=
  if negb online && path_exists then load_graphml
  else
    match
      (let! G := graph_from_point center dist in
       let! _ := save_graphml G in
       Ok G)
    with
    | Ok G => Ok G
    | Raise _ => Ok (build_grid_graph 10)
    end.

(** ** The three searches *)

(** [ox.nearest_nodes(G, c[1], c[0]) if hasattr(ox, 'nearest_nodes') else c] *)
Definition resolve (G : graph) (c : Coord) : result node :=
  match nearest_nodes with
  | Some nearest => nearest (nodes G) (snd c) (fst c)
  | None => Ok (NTuple c)
  end.

(** The part the three functions share: resolve both ends, search, turn
    the nodes into coordinates. *)
Definition route (G : graph) (origin target : Coord) (weight : weight_key)
  : run (result (list Coord)) :=
  match resolve G origin with
  | Raise e => Done (Raise e)
  | Ok origin_node =>
      match resolve G target with
      | Raise e => Done (Raise e)
      | Ok target_node =>
          match shortest_path G origin_node target_node weight with
          | OutOfFuel => OutOfFuel
          | Done (Raise e) => Done (Raise e)
          | Done (Ok path) => Done (Ok (_nodes_to_coords G path origin target))
          end
      end
  end.

(** [try: ... return coords / except Exception: return None], together
    with the graph as the call leaves it. *)
Definition guarded (G : graph) (r : run (result (list Coord)))
  : run (option graph * option (list Coord)) :=
  match r with
  | OutOfFuel => OutOfFuel
  | Done (Ok coords) => Done (Some G, Some coords)
  | Done (Raise _) => Done (Some G, None)
  end.

Definition compute_shortest_path (G : option graph) (origin target : Coord)
  (weight : weight_key) : run (option graph * option (list Coord)) :=
  match G with
  | None => Done (None, None)
  | Some g => guarded g (route g origin target weight)
  end.

Definition compute_fastest_path (G : option graph) (origin target : Coord)
  : run (option graph * option (list Coord)) :=
  match G with
  | None => Done (None, None)
  | Some g =>
      match annotate_time g with
      | Raise _ => Done (Some g, None)
      | Ok g' => guarded g' (route g' origin target (@d_time _))
      end
  end.

Definition compute_safest_path (G : option graph) (origin target : Coord)
  : run (option graph * option (list Coord)) :=
  match G with
  | None => Done (None, None)
  | Some g =>
      match annotate_safe_weight g with
      | Raise _ => Done (Some g, None)
      | Ok g' => guarded g' (route g' origin target (@d_safe_weight _))
      end
  end.

End Routing.

(** ** A concrete shapely and OSMnx, for running the program

    Geometries are LineStrings with segments parallel to the axes, given
    by their vertices; the centroid of a LineString is the mean of the
    midpoints of its segments, weighted by their lengths.  Polygons are
    axis-parallel boxes, which contain the points of their interior. *)

Definition segment_length (p q : Point) : num :=
  (Qcabs (fst q - fst p) + Qcabs (snd q - snd p))%Qc.

(** Total length and the length-weighted sums of the midpoints. *)
Fixpoint line_moments (l : list Point) : num * num * num :=
  match l with
  | p :: (q :: _) as r =>
      let '(len, mx, my) := line_moments r in
      let w := segment_length p q in
      ((len + w)%Qc,
       (mx + w * ((fst p + fst q) / Zq 2))%Qc,
       (my + w * ((snd p + snd q) / Zq 2))%Qc)
  | _ => (Zq 0, Zq 0, Zq 0)
  end.

Definition line_centroid (l : list Point) : Point :=
  let '(len, mx, my) := line_moments l in
  if num_eqb len (Zq 0) then hd (Zq 0, Zq 0) l
  else ((mx / len)%Qc, (my / len)%Qc).

(** The box with corners [lo] and [hi]. *)
Definition box_contains (b : Point * Point) (p : Point) : bool :=
  let '(lo, hi) := b in
  num_ltb (fst lo) (fst p) && num_ltb (fst p) (fst hi)
  && num_ltb (snd lo) (snd p) && num_ltb (snd p) (snd hi).

Definition plane : Shapely :=
  {| Geometry := list Point;
     Polygon := (Point * Point)%type;
     centroid := line_centroid;
     contains := box_contains |}.

(** Nearest node by squared planar distance, the first one among equals;
    [KeyError] on a node without coordinates, [ValueError] on an empty
    table. *)
Fixpoint nearest_from (Sh : Shapely) (l : list (node * node_attr))
  (X Y : num) (best : option (node * num)) : result node :=
  match l with
  | [] => match best with Some (n, _) => Ok n | None => Raise ValueError end
  | (n, a) :: r =>
      let! x := getitem (attr_x a) in
      let! y := getitem (attr_y a) in
      let d := ((x - X) * (x - X) + (y - Y) * (y - Y))%Qc in
      match best with
      | Some (_, bd) =>
          nearest_from Sh r X Y (if num_ltb d bd then Some (n, d) else best)
      | None => nearest_from Sh r X Y (Some (n, d))
      end
  end.

(** An installation with [nearest_nodes], no network and no cache file. *)
Definition offline (Sh : Shapely) : OSMnx :=
  {| nearest_nodes := Some (fun tbl X Y => nearest_from Sh tbl X Y None);
     graph_from_point := fun _ _ => Raise IOError;
     save_graphml := fun _ => Raise IOError;
     load_graphml := Raise IOError;
     path_exists := false |}.

(** The same installation with a cache file that cannot be read. *)
Definition broken_cache (Sh : Shapely) : OSMnx :=
  {| nearest_nodes := Some (fun tbl X Y => nearest_from Sh tbl X Y None);
     graph_from_point := fun _ _ => Raise IOError;
     save_graphml := fun _ => Raise IOError;
     load_graphml := Raise IOError;
     path_exists := true |}.

(** An old OSMnx without [nearest_nodes]: coordinates are used as nodes. *)
Definition legacy (Sh : Shapely) : OSMnx :=
  {| nearest_nodes := None;
     graph_from_point := fun _ _ => Raise IOError;
     save_graphml := fun _ => Raise IOError;
     load_graphml := Raise IOError;
     path_exists := false |}.

(** ** Sample data *)

Definition at_xy (x y : Z) : @node_attr :=
  {| attr_x := Some (Zq x); attr_y := Some (Zq y) |}.

Definition pt (x y : Z) : Point := (Zq x, Zq y).

Definition latlon (lat lon : Z) : Coord := (Zq lat, Zq lon).

Definition road (u v k : Z) (len : option Z) (geom : option (list Point))
  : @edge plane :=
  {| eu := NInt u; ev := NInt v; ekey := k;
     edata := @Build_edge_data plane (option_map Zq len) None None geom None None |}.

(** The triangle of the specification: A-B 10, B-C 10, A-C 15. *)
Definition triangle : @graph plane :=
  {| is_multigraph := true; is_directed := false;
     nodes := [(NInt 1, at_xy 0 0); (NInt 2, at_xy 10 10); (NInt 3, at_xy 20 0)];
     edges := [road 1 2 0 (Some 10%Z) None; road 2 3 0 (Some 10%Z) None;
               road 1 3 0 (Some 15%Z) None] |}.

(** Two roads from node 1 to node 2 in an OSM-style MultiDiGraph: the
    straight one (key 0) and a detour (key 1). *)
Definition straight_road : @edge plane :=
  road 1 2 0 (Some 10%Z) (Some [pt 0 0; pt 10 0]).

Definition detour_road : @edge plane :=
  road 1 2 1 (Some 30%Z) (Some [pt 0 0; pt 0 10; pt 10 10; pt 10 0]).

Definition two_roads : @graph plane :=
  {| is_multigraph := true; is_directed := true;
     nodes := [(NInt 1, at_xy 0 0); (NInt 2, at_xy 10 0)];
     edges := [straight_road; detour_road] |}.

(** A hazard around the middle of the straight road. *)
Definition flood : @Polygon plane := (pt 4 (-1), pt 6 1).

(** A single road of length 100 without a speed. *)
Definition one_road : @graph plane :=
  {| is_multigraph := true; is_directed := true;
     nodes := [(NInt 1, at_xy 0 0); (NInt 2, at_xy 10 0)];
     edges := [road 1 2 0 (Some 100%Z) None] |}.

(** A triangle in which only the direct road carries a length; every road
    has speed 30 and hazard penalty 0. *)
Definition plain_road (u v : Z) (len : option Z) : @edge plane :=
  {| eu := NInt u; ev := NInt v; ekey := 0;
     edata := @Build_edge_data plane (option_map Zq len) (Some (Zq 30))
                (Some (Zq 0)) None None None |}.

Definition unmeasured : @graph plane :=
  {| is_multigraph := true; is_directed := false;
     nodes := [(NInt 1, at_xy 0 0); (NInt 2, at_xy 10 10); (NInt 3, at_xy 20 0)];
     edges := [plain_road 1 2 None; plain_road 2 3 None;
               plain_road 1 3 (Some 50%Z)] |}.

(** A single road with a negative length. *)
Definition negative_road : @graph plane :=
  {| is_multigraph := true; is_directed := false;
     nodes := [(NInt 1, at_xy 0 0); (NInt 2, at_xy 10 0)];
     edges := [road 1 2 0 (Some (-5)%Z) None] |}.

(** Two roads that do not meet. *)
Definition two_islands : @graph plane :=
  {| is_multigraph := true; is_directed := false;
     nodes := [(NInt 1, at_xy 0 0); (NInt 2, at_xy 10 0);
               (NInt 3, at_xy 0 50); (NInt 4, at_xy 10 50)];
     edges := [road 1 2 0 (Some 10%Z) None; road 3 4 0 (Some 10%Z) None] |}.

(** ** Notions used in the statements *)

(** [subseq l' l]: [l'] is [l] with some elements dropped. *)
Inductive subseq {A : Type} : list A -> list A -> Prop :=
| subseq_nil : subseq [] []
| subseq_keep x l' l : subseq l' l -> subseq (x :: l') (x :: l)
| subseq_drop x l' l : subseq l' l -> subseq l' (x :: l).

Section Walks.

Context {Sh : Shapely}.

(** [step G a b]: an edge of [G] leads from [a] to [b] (in either
    direction when [G] is undirected). *)
Definition step (G : graph) (a b : node) : Prop :=
  exists e, In e (edges G) /\ connects G a b e = true.

(** [is_walk G s p t]: the node list [p] starts at [s], ends at [t] and
    follows edges of [G]. *)
Inductive is_walk (G : graph) (s : node) : list node -> node -> Prop :=
| walk_start : is_walk G s [s] s
| walk_snoc p v u : is_walk G s p v -> step G v u -> is_walk G s (p ++ [u]) u.

Inductive reachable (G : graph) (s : node) : node -> Prop :=
| reach_refl : reachable G s s
| reach_step v u : reachable G s v -> step G v u -> reachable G s u.

(** A set of nodes that no edge leaves. *)
Definition closed_under (G : graph) (P : node -> bool) : bool :=
  forallb (fun e =>
    implb (P (eu e)) (P (ev e))
    && (is_directed G || implb (P (ev e)) (P (eu e)))) (edges G).

End Walks.

Definition result_map {A B : Type} (f : A -> B) (r : result A) : result B :=
  match r with Ok a => Ok (f a) | Raise e => Raise e end.

Definition run_map {A B : Type} (f : A -> B) (r : run A) : run B :=
  match r with Done a => Done (f a) | OutOfFuel => OutOfFuel end.

(** The time weight as the specification words it: the speed formula when
    a length and a positive [speed_kph] are both present, otherwise the
    length (or 100) over 10. *)
Definition claimed_time {Sh : Shapely} (data : edge_data) : num :=
  match d_length data, d_speed_kph data with
  | Some len, Some speed =>
      if num_ltb (Zq 0) speed
      then (len / (speed * Zq 1000 / Zq 3600))%Qc
      else (get (d_length data) (Zq 100) / Zq 10)%Qc
  | _, _ => (get (d_length data) (Zq 100) / Zq 10)%Qc
  end.

(** The factor between a length and its travel time at a given speed
    attribute. *)
Definition time_factor (speed_kph : option num) : num :=
  let speed := get speed_kph (Zq 30) in
  if num_ltb (Zq 0) speed then (/ (speed * Zq 1000 / Zq 3600))%Qc
  else (/ Zq 10)%Qc.

(** The value [t] found under ["time"] after the fastest search, for an
    edge whose attributes were [data] before it. *)
Definition time_rule {Sh : Shapely} (data : edge_data) (t : option num) : Prop :=
  let speed := get (d_speed_kph data) (Zq 30) in
  (forall len, d_length data = Some len -> (Zq 0 < speed)%Qc ->
     t = Some (len / (speed * Zq 1000 / Zq 3600))%Qc)
  /\ (forall len, d_length data = Some len -> ~ (Zq 0 < speed)%Qc ->
       t = Some (len / Zq 10)%Qc)
  /\ (d_length data = None -> t = Some (Zq 100 / Zq 10)%Qc).

(** [e'] is the edge [e] with nothing changed but its ["time"]. *)
Definition same_but_time {Sh : Shapely} (e e' : edge) : Prop :=
  eu e' = eu e /\ ev e' = ev e /\ ekey e' = ekey e
  /\ d_length (edata e') = d_length (edata e)
  /\ d_speed_kph (edata e') = d_speed_kph (edata e)
  /\ d_hazard_penalty (edata e') = d_hazard_penalty (edata e)
  /\ d_geometry (edata e') = d_geometry (edata e)
  /\ d_safe_weight (edata e') = d_safe_weight (edata e).

Section HazardNotions.

Context {Sh : Shapely}.

(** The representative point of an edge: the centroid of its geometry,
    else the midpoint of its end nodes; an exception when the nodes have no
    coordinates. *)
Definition representative_point (G : graph) (e : edge) : result Point :=
  edge_midpoint G (eu e) (ev e) (edata e).

(** The edge has a representative point and some polygon contains it. *)
Definition in_hazard (G : graph) (polys : list Polygon) (e : edge) : bool :=
  match representative_point G e with
  | Ok m => existsb (fun poly => contains poly m) polys
  | Raise _ => false
  end.

(** No two edges join the same pair of nodes. *)
Definition no_parallel_edges (G : graph) : Prop :=
  NoDup (edges G)
  /\ forall e1 e2, In e1 (edges G) -> In e2 (edges G) ->
       connects G (eu e1) (ev e1) e2 = true -> e1 = e2.

End HazardNotions.

(** * Properties *)

(** ** Numbers and nodes *)

Lemma num_eqb_eq (a b : num) : num_eqb a b = true <-> a = b.
Proof.
  unfold num_eqb. rewrite Qeq_bool_iff. split.
  - apply Qc_is_canon.
  - intros ->. reflexivity.
Qed.

Lemma num_eqb_refl (a : num) : num_eqb a a = true.
Proof. apply num_eqb_eq. reflexivity. Qed.

Lemma num_ltb_lt (a b : num) : num_ltb a b = true <-> (a < b)%Qc.
Proof.
  unfold num_ltb. rewrite Qclt_alt.
  destruct (a ?= b)%Qc; split; congruence.
Qed.

Lemma num_ltb_irrefl (a : num) : num_ltb a a = false.
Proof.
  destruct (num_ltb a a) eqn:E; [|reflexivity].
  apply num_ltb_lt in E. exfalso. revert E. apply Qcle_not_lt, Qcle_refl.
Qed.

Lemma node_eqb_eq (a b : node) : node_eqb a b = true <-> a = b.
Proof.
  destruct a as [i|[a1 a2]], b as [j|[b1 b2]]; simpl;
    try (split; [discriminate | intros E; discriminate E]).
  - rewrite Z.eqb_eq. split; [intros -> | intros [= ->]]; reflexivity.
  - rewrite andb_true_iff, !num_eqb_eq.
    split; [intros [-> ->] | intros [= -> ->]]; auto.
Qed.

Lemma node_eqb_refl (a : node) : node_eqb a a = true.
Proof. apply node_eqb_eq. reflexivity. Qed.

Lemma node_eqb_neq (a b : node) : node_eqb a b = false <-> a <> b.
Proof.
  rewrite <- node_eqb_eq. destruct (node_eqb a b); split; congruence.
Qed.

Lemma node_eqb_sym (a b : node) : node_eqb a b = node_eqb b a.
Proof.
  destruct (node_eqb a b) eqn:E.
  - apply node_eqb_eq in E. subst. symmetry. apply node_eqb_refl.
  - symmetry. apply node_eqb_neq. apply node_eqb_neq in E. congruence.
Qed.

(** ** Path materialisation *)

Section Materialisation.

Context {Sh : Shapely}.

Lemma append_loop_map (A B : Type) (f : A -> B) (l : list A) (acc : list B) :
  fold_left (fun coords nd => coords ++ [f nd]) l acc = acc ++ map f l.
Proof.
  revert acc. induction l as [|x l IH]; intros acc; simpl.
  - now rewrite app_nil_r.
  - rewrite IH, <- app_assoc. reflexivity.
Qed.

Lemma nodes_to_coords_nonempty (G : graph) (x : node) (path : list node)
  (origin target : Coord) :
  _nodes_to_coords G (x :: path) origin target =
  map (coord_of_node G origin) (x :: path).
Proof.
  unfold _nodes_to_coords. rewrite append_loop_map. reflexivity.
Qed.

Lemma nodes_to_coords_never_empty (G : graph) (path : list node)
  (origin target : Coord) :
  _nodes_to_coords G path origin target <> [].
Proof.
  destruct path as [|x path].
  - discriminate.
  - rewrite nodes_to_coords_nonempty. discriminate.
Qed.

(** C9. Path materialisation turns the empty node sequence into
    [origin; target]; otherwise the i-th coordinate comes from the i-th
    node: a tuple node is the coordinate itself; for any other node the
    [y]/[x] attributes are read as (lat, lon), a missing attribute being
    replaced by the corresponding component of [origin] (so [origin] itself
    when both are missing), and [origin] is used when the node lookup
    fails. *)
Theorem nodes_to_coords_spec (G : graph) (path : list node)
  (origin target : Coord) :
  (path = [] -> _nodes_to_coords G path origin target = [origin; target])
  /\ (forall i nd, nth_error path i = Some nd ->
      exists c,
        nth_error (_nodes_to_coords G path origin target) i = Some c
        /\ (forall t, nd = NTuple t -> c = t)
        /\ (forall a y x, isinstance_tuple nd = false ->
              nodes_getitem G nd = Ok a ->
              attr_y a = Some y -> attr_x a = Some x -> c = (y, x))
        /\ (forall a, isinstance_tuple nd = false ->
              nodes_getitem G nd = Ok a ->
              c = (get (attr_y a) (fst origin), get (attr_x a) (snd origin)))
        /\ (forall a, isinstance_tuple nd = false ->
              nodes_getitem G nd = Ok a ->
              attr_y a = None -> attr_x a = None -> c = origin)
        /\ (forall e, isinstance_tuple nd = false ->
              nodes_getitem G nd = Raise e -> c = origin)).
Proof.
  split.
  - intros ->. reflexivity.
  - intros i nd Hi.
    destruct path as [|x path]; [destruct i; discriminate|].
    rewrite nodes_to_coords_nonempty.
    exists (coord_of_node G origin nd). split.
    + now apply map_nth_error.
    + destruct nd as [k|t]; simpl.
      * repeat split.
        -- intros t [=].
        -- intros a y0 x0 _ -> -> ->. reflexivity.
        -- intros a _ ->. reflexivity.
        -- intros a _ -> -> ->. simpl. now destruct origin.
        -- intros e _ ->. reflexivity.
      * repeat split; try (intros; discriminate).
        intros t' [= ->]. reflexivity.
Qed.

(** C10. On a non-empty node sequence path materialisation returns exactly
    one coordinate per node. *)
Theorem nodes_to_coords_length (G : graph) (path : list node)
  (origin target : Coord) :
  path <> [] ->
  length (_nodes_to_coords G path origin target) = length path.
Proof.
  destruct path as [|x path]; [congruence|]. intros _.
  rewrite nodes_to_coords_nonempty. apply length_map.
Qed.

End Materialisation.

(** ** The hazard edge filter *)

Lemma subseq_refl (A : Type) (l : list A) : subseq l l.
Proof. induction l; constructor; assumption. Qed.

Lemma subseq_trans (A : Type) (l1 l2 l3 : list A) :
  subseq l1 l2 -> subseq l2 l3 -> subseq l1 l3.
Proof.
  intros H12 H23. revert l1 H12.
  induction H23 as [|x l2 l3 H IH|x l2 l3 H IH]; intros l1 H12.
  - assumption.
  - inversion H12; subst.
    + constructor. now apply IH.
    + apply subseq_drop. now apply IH.
  - apply subseq_drop. now apply IH.
Qed.

Lemma subseq_In (A : Type) (l' l : list A) (x : A) :
  subseq l' l -> In x l' -> In x l.
Proof.
  induction 1; simpl; intros Hx; auto.
  destruct Hx; auto.
Qed.

Lemma remove_last_some (A : Type) (p : A -> bool) (l l' : list A) :
  remove_last p l = Some l' ->
  subseq l' l /\ length l = S (length l').
Proof.
  revert l'. induction l as [|x l IH]; intros l'; simpl; [discriminate|].
  destruct (remove_last p l) as [r|] eqn:E.
  - intros [= <-]. destruct (IH r eq_refl) as [Hs Hl]. split.
    + now constructor.
    + simpl. now rewrite Hl.
  - destruct (p x); [|discriminate]. intros [= <-]. split.
    + apply subseq_drop, subseq_refl.
    + reflexivity.
Qed.

Section HazardFilter.

Context {Sh : Shapely}.

(** What the loop of [block_edges_by_hazards] preserves: the node table
    and the class of the graph; the edges are the original ones with
    [blocked] of them dropped. *)
Definition filtered (g : graph) (st : graph * Z) : Prop :=
  nodes (fst st) = nodes g
  /\ is_multigraph (fst st) = is_multigraph g
  /\ is_directed (fst st) = is_directed g
  /\ subseq (edges (fst st)) (edges g)
  /\ (0 <= snd st)%Z
  /\ Z.of_nat (length (edges g)) = (Z.of_nat (length (edges (fst st))) + snd st)%Z.

Lemma remove_edge_filtered (g : graph) (st : graph * Z) (u v : node) (g' : graph) :
  filtered g st -> remove_edge (fst st) u v = Ok g' ->
  filtered g (g', (snd st + 1)%Z).
Proof.
  intros (Hn & Hm & Hd & Hs & H0 & Hl). unfold remove_edge.
  destruct (remove_last _ _) as [es|] eqn:E; [|discriminate].
  intros [= <-]. apply remove_last_some in E. destruct E as [Es El].
  repeat split; simpl; auto.
  - eapply subseq_trans; eassumption.
  - lia.
  - rewrite Hl, El. lia.
Qed.

Lemma test_polygons_filtered (g : graph) (polys : list Polygon) (m : Point)
  (u v : node) (st st' : graph * Z) :
  filtered g st -> test_polygons polys m u v st = Ok st' -> filtered g st'.
Proof.
  intros Hst. induction polys as [|poly rest IH]; simpl.
  - now intros [= <-].
  - destruct (contains poly m); [|exact IH].
    destruct (remove_edge (fst st) u v) as [g'|] eqn:E; simpl; [|discriminate].
    intros [= <-]. eapply remove_edge_filtered; eassumption.
Qed.

Lemma block_step_filtered (g : graph) (polys : list Polygon) (st : graph * Z)
  (e : edge) :
  filtered g st -> filtered g (block_step polys st e).
Proof.
  intros Hst. unfold block_step.
  destruct (edge_midpoint (fst st) (eu e) (ev e) (edata e)) as [m|]; simpl; auto.
  destruct (test_polygons polys m (eu e) (ev e) st) as [st'|] eqn:E; auto.
  eapply test_polygons_filtered; eassumption.
Qed.

Lemma block_loop_filtered (g : graph) (polys : list Polygon) (es : list edge)
  (st : graph * Z) :
  filtered g st -> filtered g (fold_left (block_step polys) es st).
Proof.
  revert st. induction es as [|e es IH]; intros st Hst; simpl; auto.
  apply IH, block_step_filtered, Hst.
Qed.

Lemma filtered_init (g : graph) : filtered g (g, 0%Z).
Proof.
  repeat split; simpl; auto using subseq_refl; lia.
Qed.

(** C8. [block_edges_by_hazards] leaves the node table as it was: it only
    drops edges, and the count it returns is the number of edges
    dropped. *)
Theorem block_edges_only_edges (g : graph) (polys : option (list Polygon)) :
  exists g',
    fst (block_edges_by_hazards (Some g) polys) = Some g'
    /\ nodes g' = nodes g
    /\ subseq (edges g') (edges g)
    /\ (Z.of_nat (length (edges g')) <= Z.of_nat (length (edges g)))%Z
    /\ snd (block_edges_by_hazards (Some g) polys)
       = (Z.of_nat (length (edges g)) - Z.of_nat (length (edges g')))%Z.
Proof.
  destruct polys as [polys|]; simpl.
  - pose proof (block_loop_filtered polys (edges g) (filtered_init g)) as Hf.
    destruct (fold_left (block_step polys) (edges g) (g, 0%Z)) as [g' blocked].
    destruct Hf as (Hn & _ & _ & Hs & H0 & Hl). simpl in *.
    exists g'. repeat split; auto; lia.
  - exists g. repeat split; auto using subseq_refl; lia.
Qed.

End HazardFilter.

(** ** The search: dictionaries and the heap *)

Lemma dget_dset (V : Type) (d : list (node * V)) (k k' : node) (v : V) :
  dget (dset d k v) k' = if node_eqb k k' then Some v else dget d k'.
Proof.
  induction d as [|[k0 v0] d IH]; simpl.
  - reflexivity.
  - destruct (node_eqb k0 k) eqn:E; simpl.
    + apply node_eqb_eq in E. subst k0. now destruct (node_eqb k k').
    + rewrite IH. destruct (node_eqb k0 k') eqn:E'; [|reflexivity].
      apply node_eqb_eq in E'. subst k0. now rewrite node_eqb_sym, E.
Qed.

Lemma pop_min_length (l r : list entry) (x : entry) :
  pop_min l = Some (x, r) -> length l = S (length r).
Proof.
  revert x r. induction l as [|y l IH]; intros x r; simpl; [discriminate|].
  destruct (pop_min l) as [[m r']|] eqn:E.
  - specialize (IH m r' eq_refl).
    destruct (entry_ltb m y); intros [= <- <-]; simpl; congruence.
  - intros [= <- <-]. destruct l as [|z l]; [reflexivity|].
    simpl in E. destruct (pop_min l) as [[m r']|]; [|discriminate].
    destruct (entry_ltb m z); discriminate.
Qed.

(** ** The search terminates within its fuel *)

Section Termination.

Context {Sh : Shapely}.

Definition finalised (D : list (node * num)) (n : node) : bool :=
  match dget D n with Some _ => true | None => false end.

(** Edge ends that are not finalised yet: each can still cause a push. *)
Fixpoint pending (es : list edge) (D : list (node * num)) : nat :=
  match es with
  | [] => 0
  | e :: r =>
      (if finalised D (eu e) then 0 else 1)
      + (if finalised D (ev e) then 0 else 1)
      + pending r D
  end.

Lemma pending_bound (es : list edge) (D : list (node * num)) :
  pending es D <= 2 * length es.
Proof.
  induction es as [|e es IH]; simpl; [lia|].
  destruct (finalised D (eu e)), (finalised D (ev e)); lia.
Qed.

Lemma finalised_dset (D : list (node * num)) (v n : node) (d : num) :
  finalised (dset D v d) n = node_eqb v n || finalised D n.
Proof.
  unfold finalised. rewrite dget_dset. now destruct (node_eqb v n).
Qed.

Lemma incident_pending (G : graph) (D : list (node * num)) (v : node) (d : num) :
  finalised D v = false ->
  length (incident G v) + pending (edges G) (dset D v d) <= pending (edges G) D.
Proof.
  intros Hv. unfold incident.
  induction (edges G) as [|e es IH]; simpl; [lia|].
  rewrite length_app, !finalised_dset.
  destruct (node_eqb (eu e) v) eqn:Eu.
  - apply node_eqb_eq in Eu. rewrite Eu, node_eqb_refl, Hv. simpl.
    destruct (node_eqb v (ev e) || finalised D (ev e)) eqn:E1,
             (finalised D (ev e)) eqn:E2; simpl; lia.
  - rewrite (node_eqb_sym v (eu e)), Eu. simpl.
    destruct (node_eqb (ev e) v) eqn:Ev.
    + apply node_eqb_eq in Ev. rewrite Ev, node_eqb_refl, Hv. simpl.
      destruct (negb (is_directed G)), (finalised D (eu e)); simpl in *; lia.
    + rewrite (node_eqb_sym v (ev e)), Ev, andb_false_r. simpl.
      destruct (finalised D (eu e)), (finalised D (ev e)); simpl; lia.
Qed.

Lemma group_add_length (u : node) (d : edge_data)
  (acc : list (node * list edge_data)) :
  length (group_add u d acc) <= S (length acc).
Proof.
  induction acc as [|[w ds] acc IH]; simpl; [lia|].
  destruct (node_eqb w u); simpl; lia.
Qed.

Lemma adj_length (G : graph) (v : node) :
  length (adj G v) <= length (incident G v).
Proof.
  unfold adj.
  enough (forall l acc,
    length (fold_left (fun acc p => group_add (fst p) (snd p) acc) l acc)
    <= length l + length acc) as E.
  { specialize (E (incident G v) []). simpl in E. lia. }
  induction l as [|p l IH]; intros acc; simpl; [lia|].
  specialize (IH (group_add (fst p) (snd p) acc)).
  pose proof (group_add_length (fst p) (snd p) acc). lia.
Qed.

Lemma weighted_adj_length (G : graph) (w : weight_key) (v : node) :
  length (weighted_adj G w v) <= length (incident G v).
Proof.
  unfold weighted_adj. rewrite length_map. apply adj_length.
Qed.

Lemma push_node_shape (st st' : dstate) (v u : node) (x : num) :
  push_node st v u x = Ok st' ->
  dist st' = dist st /\ length (fringe st') = S (length (fringe st)).
Proof.
  unfold push_node. destruct (dget (paths st) v); simpl; [|discriminate].
  intros [= <-]. simpl. auto.
Qed.

Lemma relax_shape (v : node) (dv : num) (st st' : dstate) (uc : node * num) :
  relax v dv st uc = Ok st' ->
  dist st' = dist st /\ length (fringe st') <= S (length (fringe st)).
Proof.
  destruct uc as [u cost]. unfold relax.
  destruct (dget (dist st) u).
  - destruct (num_ltb _ _); [discriminate|]. intros [= <-]. auto.
  - destruct (dget (seen st) u).
    + destruct (num_ltb _ _).
      * intros E. apply push_node_shape in E. destruct E as [-> ->]. auto.
      * intros [= <-]. auto.
    + intros E. apply push_node_shape in E. destruct E as [-> ->]. auto.
Qed.

Lemma relax_all_shape (v : node) (dv : num) (nbrs : list (node * num))
  (st st' : dstate) :
  relax_all v dv nbrs st = Ok st' ->
  dist st' = dist st /\ length (fringe st') <= length nbrs + length (fringe st).
Proof.
  revert st. induction nbrs as [|uc nbrs IH]; intros st; simpl.
  - intros [= <-]. auto.
  - destruct (relax v dv st uc) as [st1|] eqn:E; simpl; [|discriminate].
    intros E'. apply relax_shape in E. apply IH in E'.
    destruct E as [E1 E2], E' as [E3 E4]. split; [congruence | lia].
Qed.

Lemma dijkstra_loop_fuel (G : graph) (w : weight_key) (target : node)
  (fuel : nat) (st : dstate) :
  length (fringe st) + pending (edges G) (dist st) < fuel ->
  exists r, dijkstra_loop fuel (weighted_adj G w) target st = Done r.
Proof.
  revert st. induction fuel as [|fuel IH]; intros st Hm; [lia|].
  simpl. destruct (pop_min (fringe st)) as [[[[d c] v] rest]|] eqn:Ep.
  - apply pop_min_length in Ep. simpl.
    destruct (dget (dist st) v) eqn:Ed.
    + apply IH. simpl. lia.
    + destruct (node_eqb v target); [eexists; reflexivity|].
      destruct (relax_all _ _ _ _) as [st3|e] eqn:Er; [|eexists; reflexivity].
      apply relax_all_shape in Er. simpl in Er. destruct Er as [Er1 Er2].
      apply IH. rewrite Er1.
      pose proof (weighted_adj_length G w v).
      assert (finalised (dist st) v = false) as Hf
        by (unfold finalised; now rewrite Ed).
      pose proof (@incident_pending G (dist st) v d Hf). lia.
  - eexists; reflexivity.
Qed.

(** The search always returns: with a result or with an exception. *)
Lemma shortest_path_returns (G : graph) (source target : node) (w : weight_key) :
  exists r, shortest_path G source target w = Done r.
Proof.
  unfold shortest_path.
  destruct (negb (has_node G source)); [eexists; reflexivity|].
  destruct (node_eqb target source); [eexists; reflexivity|].
  destruct (@dijkstra_loop_fuel G w target (search_fuel G) (dijkstra_init source))
    as [r Hr].
  { unfold search_fuel. simpl.
    pose proof (pending_bound (edges G) []). lia. }
  rewrite Hr. destruct r as [st|e]; [|eexists; reflexivity].
  destruct (dget (paths st) target), (dget (dist st) target);
    eexists; reflexivity.
Qed.

End Termination.

(** ** The search follows edges *)

Section SearchWalks.

Context {Sh : Shapely}.

Lemma walk_reachable (G : graph) (s t : node) (p : list node) :
  is_walk G s p t -> reachable G s t.
Proof.
  induction 1.
  - constructor.
  - econstructor; eassumption.
Qed.

Lemma closed_under_reachable (G : graph) (P : node -> bool) (s t : node) :
  closed_under G P = true -> P s = true -> reachable G s t -> P t = true.
Proof.
  intros Hc Hs Hr. induction Hr as [|v u Hr IH [e [He Hconn]]]; [assumption|].
  unfold closed_under in Hc. rewrite forallb_forall in Hc.
  specialize (Hc e He). apply andb_true_iff in Hc. destruct Hc as [H1 H2].
  unfold connects in Hconn. apply orb_true_iff in Hconn.
  destruct Hconn as [Hconn|Hconn].
  - apply andb_true_iff in Hconn. destruct Hconn as [Eu Ev].
    apply node_eqb_eq in Eu, Ev. subst. now rewrite IH in H1.
  - apply andb_true_iff in Hconn. destruct Hconn as [Hconn Ev].
    apply andb_true_iff in Hconn. destruct Hconn as [Hd Eu].
    apply node_eqb_eq in Eu, Ev. subst.
    destruct (is_directed G); [discriminate|]. simpl in H2.
    now rewrite IH in H2.
Qed.

Lemma incident_step (G : graph) (v u : node) :
  In u (map fst (incident G v)) -> step G v u.
Proof.
  unfold incident. rewrite in_map_iff. intros [[u' d] [<- Hin]].
  apply in_flat_map in Hin. destruct Hin as [e [He Hin]].
  exists e. split; [assumption|]. unfold connects.
  destruct (node_eqb (eu e) v) eqn:Eu.
  - destruct Hin as [[= <- <-]|[]]. simpl. now rewrite node_eqb_refl.
  - destruct (negb (is_directed G)); simpl in *; [|contradiction].
    destruct (node_eqb (ev e) v) eqn:Ev; [|contradiction].
    destruct Hin as [[= <- <-]|[]]. simpl.
    now rewrite node_eqb_refl.
Qed.

Lemma group_add_keys (u0 u : node) (d : edge_data)
  (acc : list (node * list edge_data)) :
  In u (map fst (group_add u0 d acc)) -> u = u0 \/ In u (map fst acc).
Proof.
  induction acc as [|[w ds] acc IH]; simpl.
  - intros [<-|[]]. now left.
  - destruct (node_eqb w u0); simpl.
    + intros H. now right.
    + intros [<-|H]; [right; now left|].
      destruct (IH H); auto.
Qed.

Lemma adj_keys (G : graph) (v u : node) :
  In u (map fst (adj G v)) -> In u (map fst (incident G v)).
Proof.
  unfold adj.
  enough (forall l acc,
    In u (map fst (fold_left (fun acc p => group_add (fst p) (snd p) acc) l acc)) ->
    In u (map fst l) \/ In u (map fst acc)) as E.
  { intros H. destruct (E _ _ H) as [H'|[]]. exact H'. }
  induction l as [|p l IH]; intros acc; simpl; [auto|].
  intros H. destruct (IH _ H) as [H'|H']; [auto|].
  apply group_add_keys in H'. destruct H'; auto.
Qed.

Lemma weighted_adj_step (G : graph) (w : weight_key) (v u : node) (c : num) :
  In (u, c) (weighted_adj G w v) -> step G v u.
Proof.
  unfold weighted_adj. rewrite in_map_iff. intros [[u' ds] [[= <- <-] Hin]].
  apply incident_step, adj_keys, in_map_iff.
  exists (u', ds). auto.
Qed.

(** Every recorded path is a walk from the source to its key. *)
Definition paths_are_walks (G : graph) (s : node) (st : dstate) : Prop :=
  forall u p, dget (paths st) u = Some p -> is_walk G s p u.

Lemma relax_walks (G : graph) (s v : node) (dv : num) (st st' : dstate)
  (uc : node * num) :
  step G v (fst uc) -> paths_are_walks G s st ->
  relax v dv st uc = Ok st' -> paths_are_walks G s st'.
Proof.
  destruct uc as [u c]. simpl. intros Hstep Hst.
  assert (forall x, push_node st v u x = Ok st' -> paths_are_walks G s st')
    as Hpush.
  { intros x. unfold push_node.
    destruct (dget (paths st) v) as [pv|] eqn:Epv; simpl; [|discriminate].
    intros [= <-] u' p. simpl. rewrite dget_dset.
    destruct (node_eqb u u') eqn:E.
    - apply node_eqb_eq in E. subst u'. intros [= <-].
      eapply walk_snoc; [apply Hst; eassumption | assumption].
    - apply Hst. }
  unfold relax. destruct (dget (dist st) u).
  - destruct (num_ltb _ _); [discriminate|]. now intros [= <-].
  - destruct (dget (seen st) u).
    + destruct (num_ltb _ _); [apply Hpush|]. now intros [= <-].
    + apply Hpush.
Qed.

Lemma relax_all_walks (G : graph) (s v : node) (dv : num)
  (nbrs : list (node * num)) (st st' : dstate) :
  (forall uc, In uc nbrs -> step G v (fst uc)) ->
  paths_are_walks G s st ->
  relax_all v dv nbrs st = Ok st' -> paths_are_walks G s st'.
Proof.
  revert st. induction nbrs as [|uc nbrs IH]; intros st Hn Hst; simpl.
  - now intros [= <-].
  - destruct (relax v dv st uc) as [st1|] eqn:E; simpl; [|discriminate].
    apply IH.
    + intros uc' Hin. apply Hn. now right.
    + eapply relax_walks; [apply Hn; now left | eassumption | eassumption].
Qed.

Lemma dijkstra_loop_walks (G : graph) (w : weight_key) (s target : node)
  (fuel : nat) (st st' : dstate) :
  paths_are_walks G s st ->
  dijkstra_loop fuel (weighted_adj G w) target st = Done (Ok st') ->
  paths_are_walks G s st'.
Proof.
  revert st. induction fuel as [|fuel IH]; intros st Hst; simpl; [discriminate|].
  destruct (pop_min (fringe st)) as [[[[d c] v] rest]|].
  - simpl. destruct (dget (dist st) v).
    + apply IH. exact Hst.
    + destruct (node_eqb v target).
      * intros [= <-]. exact Hst.
      * destruct (relax_all _ _ _ _) as [st3|e] eqn:Er; [|discriminate].
        apply IH. eapply relax_all_walks; [| |exact Er].
        -- intros [u c'] Hin. simpl. eapply weighted_adj_step, Hin.
        -- exact Hst.
  - now intros [= <-].
Qed.

(** A path returned by the search is a walk of the graph from the source
    to the target. *)
Lemma shortest_path_walk (G : graph) (source target : node) (w : weight_key)
  (p : list node) :
  shortest_path G source target w = Done (Ok p) -> is_walk G source p target.
Proof.
  unfold shortest_path.
  destruct (negb (has_node G source)); [discriminate|].
  destruct (node_eqb target source) eqn:E.
  - apply node_eqb_eq in E. subst. intros [= <-]. constructor.
  - destruct (dijkstra_loop _ _ _ _) as [[st|e]|] eqn:El; try discriminate.
    destruct (dget (paths st) target) as [p'|] eqn:Ep; [|discriminate].
    destruct (dget (dist st) target); [|discriminate].
    intros [= <-].
    eapply dijkstra_loop_walks in El; [apply El, Ep|].
    intros u p0. simpl. destruct (node_eqb source u) eqn:Eu; [|discriminate].
    apply node_eqb_eq in Eu. subst. intros [= <-]. constructor.
Qed.

(** Without a walk the search raises. *)
Lemma shortest_path_unreachable (G : graph) (source target : node)
  (w : weight_key) :
  ~ reachable G source target ->
  exists e, shortest_path G source target w = Done (Raise e).
Proof.
  intros Hn. destruct (shortest_path_returns G source target w) as [[p|e] Hr].
  - exfalso. apply Hn. eapply walk_reachable, shortest_path_walk, Hr.
  - now exists e.
Qed.

End SearchWalks.

(** ** The search is invariant under a change of unit

    Multiplying every weight by the same positive factor multiplies every
    distance of the run by it and changes no comparison: the heap pops the
    same nodes in the same order and the same paths are recorded. *)

Section Scaling.

Context {Sh : Shapely}.

Variable k : num.
Hypothesis k_pos : (Zq 0 < k)%Qc.

Definition scale (x : num) : num := (x * k)%Qc.

Definition scale_dict (D : list (node * num)) : list (node * num) :=
  map (fun p => (fst p, scale (snd p))) D.

Definition scale_entry (e : entry) : entry :=
  let '(d, c, n) := e in (scale d, c, n).

Definition scale_state (st : dstate) : dstate :=
  {| dist := scale_dict (dist st); seen := scale_dict (seen st);
     fringe := map scale_entry (fringe st);
     paths := paths st; counter := counter st |}.

Lemma scale_lt (a b : num) : (a < b)%Qc -> (scale a < scale b)%Qc.
Proof. intros H. unfold scale. now apply Qcmult_lt_compat_r. Qed.

Lemma num_ltb_scale (a b : num) : num_ltb (scale a) (scale b) = num_ltb a b.
Proof.
  destruct (num_ltb a b) eqn:E.
  - apply num_ltb_lt, scale_lt, num_ltb_lt, E.
  - destruct (num_ltb (scale a) (scale b)) eqn:E'; [|reflexivity].
    apply num_ltb_lt in E'. exfalso. revert E'. apply Qcle_not_lt.
    unfold scale. apply Qcmult_le_compat_r.
    + apply Qcnot_lt_le. intros H. apply num_ltb_lt in H. congruence.
    + now apply Qclt_le_weak.
Qed.

Lemma scale_inj (a b : num) : scale a = scale b -> a = b.
Proof.
  intros E. destruct (Qc_dec a b) as [[H|H]|H]; [| |assumption].
  - apply scale_lt, Qclt_not_eq in H. congruence.
  - apply scale_lt, Qclt_not_eq in H. congruence.
Qed.

Lemma num_eqb_scale (a b : num) : num_eqb (scale a) (scale b) = num_eqb a b.
Proof.
  destruct (num_eqb a b) eqn:E.
  - apply num_eqb_eq in E. subst. apply num_eqb_refl.
  - destruct (num_eqb (scale a) (scale b)) eqn:E'; [|reflexivity].
    apply num_eqb_eq, scale_inj, num_eqb_eq in E'. congruence.
Qed.

Lemma scale_plus (a b : num) : (scale a + scale b)%Qc = scale (a + b)%Qc.
Proof. unfold scale. ring. Qed.

Lemma scale_zero : scale (Zq 0) = Zq 0.
Proof. unfold scale. apply Qcmult_0_l. Qed.

Lemma entry_ltb_scale (a b : entry) :
  entry_ltb (scale_entry a) (scale_entry b) = entry_ltb a b.
Proof.
  destruct a as [[d1 c1] n1], b as [[d2 c2] n2]. simpl.
  now rewrite num_ltb_scale, num_eqb_scale.
Qed.

Lemma dget_scale (D : list (node * num)) (u : node) :
  dget (scale_dict D) u = option_map scale (dget D u).
Proof.
  induction D as [|[n d] D IH]; simpl; [reflexivity|].
  destruct (node_eqb n u); [reflexivity | exact IH].
Qed.

Lemma dset_scale (D : list (node * num)) (u : node) (x : num) :
  dset (scale_dict D) u (scale x) = scale_dict (dset D u x).
Proof.
  induction D as [|[n d] D IH]; simpl; [reflexivity|].
  destruct (node_eqb n u); simpl; [reflexivity|]. now rewrite IH.
Qed.

Lemma pop_min_scale (l : list entry) :
  pop_min (map scale_entry l)
  = option_map (fun p => (scale_entry (fst p), map scale_entry (snd p)))
      (pop_min l).
Proof.
  induction l as [|x l IH]; simpl; [reflexivity|].
  rewrite IH. destruct (pop_min l) as [[m r]|]; simpl; [|reflexivity].
  rewrite entry_ltb_scale. now destruct (entry_ltb m x).
Qed.

Lemma push_node_scale (st : dstate) (v u : node) (x : num) :
  push_node (scale_state st) v u (scale x)
  = result_map scale_state (push_node st v u x).
Proof.
  unfold push_node. simpl.
  destruct (dget (paths st) v); simpl; [|reflexivity].
  unfold scale_state. simpl. now rewrite dset_scale.
Qed.

Lemma relax_scale (v u : node) (dv c : num) (st : dstate) :
  relax v (scale dv) (scale_state st) (u, scale c)
  = result_map scale_state (relax v dv st (u, c)).
Proof.
  unfold relax. rewrite scale_plus. simpl. rewrite !dget_scale.
  destruct (dget (dist st) u) as [ud|]; simpl.
  - rewrite num_ltb_scale. now destruct (num_ltb _ _).
  - destruct (dget (seen st) u) as [sd|]; simpl.
    + rewrite num_ltb_scale. destruct (num_ltb _ _); [|reflexivity].
      apply push_node_scale.
    + apply push_node_scale.
Qed.

Lemma relax_all_scale (v : node) (dv : num) (nbrs : list (node * num))
  (st : dstate) :
  relax_all v (scale dv) (scale_dict nbrs) (scale_state st)
  = result_map scale_state (relax_all v dv nbrs st).
Proof.
  revert st. induction nbrs as [|[u c] nbrs IH]; intros st.
  - reflexivity.
  - cbn [relax_all scale_dict map fst snd]. rewrite relax_scale.
    destruct (relax v dv st (u, c)) as [st1|e]; simpl; [apply IH | reflexivity].
Qed.

Lemma dijkstra_loop_scale (succ succ' : node -> list (node * num))
  (target : node) (fuel : nat) (st : dstate) :
  (forall v, succ' v = scale_dict (succ v)) ->
  dijkstra_loop fuel succ' target (scale_state st)
  = run_map (result_map scale_state) (dijkstra_loop fuel succ target st).
Proof.
  intros Hs. revert st. induction fuel as [|fuel IH]; intros st; simpl.
  - reflexivity.
  - rewrite pop_min_scale.
    destruct (pop_min (fringe st)) as [[[[d c] v] rest]|]; simpl; [|reflexivity].
    rewrite dget_scale.
    destruct (dget (dist st) v) as [dv|]; simpl.
    + apply (IH (set_fringe st rest)).
    + destruct (node_eqb v target).
      * simpl. unfold scale_state, set_dist. simpl. now rewrite dset_scale.
      * rewrite Hs.
        change (set_dist (set_fringe (scale_state st) (map scale_entry rest))
                  v (scale d))
          with (set_dist (scale_state (set_fringe st rest)) v (scale d)).
        replace (set_dist (scale_state (set_fringe st rest)) v (scale d))
          with (scale_state (set_dist (set_fringe st rest) v d))
          by (unfold scale_state, set_dist; simpl; now rewrite dset_scale).
        rewrite relax_all_scale.
        destruct (relax_all v d (succ v) _) as [st3|e]; simpl;
          [apply IH | reflexivity].
Qed.

Lemma dijkstra_init_scale (s : node) :
  scale_state (dijkstra_init s) = dijkstra_init s.
Proof.
  unfold scale_state, dijkstra_init. simpl. now rewrite scale_zero.
Qed.

(** Two graphs with the same nodes, as many edges and weights that differ
    by the factor [k] are searched alike. *)
Lemma shortest_path_scaled (G G' : graph) (w w' : weight_key)
  (source target : node) :
  nodes G' = nodes G ->
  length (edges G') = length (edges G) ->
  (forall v, weighted_adj G' w' v = scale_dict (weighted_adj G w v)) ->
  shortest_path G' source target w' = shortest_path G source target w.
Proof.
  intros Hn Hl Hs. unfold shortest_path, has_node, search_fuel.
  rewrite Hn, Hl.
  destruct (negb _); [reflexivity|].
  destruct (node_eqb target source); [reflexivity|].
  rewrite <- (dijkstra_init_scale source) at 1.
  rewrite (@dijkstra_loop_scale (weighted_adj G w) _ target _ _ Hs).
  destruct (dijkstra_loop _ (weighted_adj G w) target _) as [[st|e]|];
    simpl; try reflexivity.
  rewrite dget_scale.
  destruct (dget (paths st) target), (dget (dist st) target); reflexivity.
Qed.

Lemma min_from_scale (x : num) (l : list num) :
  min_from (scale x) (map scale l) = scale (min_from x l).
Proof.
  revert x. induction l as [|y l IH]; intros x; simpl; [reflexivity|].
  rewrite num_ltb_scale. destruct (num_ltb y x); apply IH.
Qed.

End Scaling.

(** ** Rewriting the attributes of every edge *)

Section Relabelling.

Context {Sh : Shapely}.

Variable f : edge_data -> edge_data.

Definition relabel (G : graph) : graph :=
  set_edges G (map (fun e => set_edata e (f (edata e))) (edges G)).

Definition relabel_group (p : node * list edge_data) : node * list edge_data :=
  (fst p, map f (snd p)).

Lemma annotate_multigraph (G : graph) :
  is_multigraph G = true -> annotate f G = Ok (relabel G).
Proof.
  intros Hm. unfold annotate, edges_keys_data. now rewrite Hm.
Qed.

Lemma annotate_simple (G : graph) :
  is_multigraph G = false -> annotate f G = Raise TypeError.
Proof.
  intros Hm. unfold annotate, edges_keys_data. now rewrite Hm.
Qed.

Lemma relabel_length (G : graph) :
  length (edges (relabel G)) = length (edges G).
Proof. simpl. apply length_map. Qed.

Lemma incident_relabel (G : graph) (v : node) :
  incident (relabel G) v = map (fun p => (fst p, f (snd p))) (incident G v).
Proof.
  unfold incident. simpl.
  induction (edges G) as [|e es IH]; simpl; [reflexivity|].
  rewrite map_app, IH. f_equal.
  destruct (node_eqb (eu e) v); [reflexivity|].
  destruct (negb (is_directed G) && node_eqb (ev e) v); reflexivity.
Qed.

Lemma group_add_relabel (u : node) (d : edge_data)
  (acc : list (node * list edge_data)) :
  group_add u (f d) (map relabel_group acc)
  = map relabel_group (group_add u d acc).
Proof.
  induction acc as [|[w ds] acc IH]; simpl; [reflexivity|].
  destruct (node_eqb w u); simpl.
  - unfold relabel_group. simpl. now rewrite map_app.
  - now rewrite IH.
Qed.

Lemma adj_relabel (G : graph) (v : node) :
  adj (relabel G) v = map relabel_group (adj G v).
Proof.
  unfold adj. rewrite incident_relabel.
  change (@nil (node * list edge_data)) with (map relabel_group []) at 1.
  generalize (@nil (node * list edge_data)).
  induction (incident G v) as [|p l IH]; intros acc; simpl; [reflexivity|].
  rewrite group_add_relabel. apply IH.
Qed.

(** The attribute dictionaries found in the adjacency are those of the
    edges, and no neighbour comes without one. *)
Definition from_edges (G : graph) (ds : list edge_data) : Prop :=
  ds <> [] /\ forall d, In d ds -> exists e, In e (edges G) /\ edata e = d.

Lemma incident_data (G : graph) (v u : node) (d : edge_data) :
  In (u, d) (incident G v) -> exists e, In e (edges G) /\ edata e = d.
Proof.
  unfold incident. intros Hin. apply in_flat_map in Hin.
  destruct Hin as [e [He Hin]]. exists e. split; [assumption|].
  destruct (node_eqb (eu e) v).
  - destruct Hin as [[= _ <-]|[]]. reflexivity.
  - destruct (negb (is_directed G) && node_eqb (ev e) v); [|contradiction].
    destruct Hin as [[= _ <-]|[]]. reflexivity.
Qed.

Lemma group_add_from_edges (G : graph) (u : node) (d : edge_data)
  (acc : list (node * list edge_data)) :
  (exists e, In e (edges G) /\ edata e = d) ->
  Forall (fun p => from_edges G (snd p)) acc ->
  Forall (fun p => from_edges G (snd p)) (group_add u d acc).
Proof.
  intros Hd. induction 1 as [|[w ds] acc [Hne Hds] Hacc IH]; simpl.
  - constructor; [|constructor]. split; [discriminate|].
    intros d' [<-|[]]. exact Hd.
  - destruct (node_eqb w u).
    + constructor; [|assumption]. simpl in *. split.
      * destruct ds; [congruence | discriminate].
      * intros d' Hin. apply in_app_or in Hin.
        destruct Hin as [Hin|[<-|[]]]; auto.
    + constructor; [split|]; assumption.
Qed.

Lemma adj_from_edges (G : graph) (v : node) :
  Forall (fun p => from_edges G (snd p)) (adj G v).
Proof.
  unfold adj.
  assert (forall p, In p (incident G v) ->
            exists e, In e (edges G) /\ edata e = snd p) as Hinc.
  { intros [u d] Hin. eapply incident_data, Hin. }
  revert Hinc.
  assert (Forall (fun p : node * list edge_data => from_edges G (snd p)) [])
    as Hacc by constructor.
  revert Hacc. generalize (@nil (node * list edge_data)).
  induction (incident G v) as [|p l IH]; intros acc Hacc Hinc; simpl.
  - exact Hacc.
  - apply IH.
    + apply group_add_from_edges; [apply Hinc; now left | exact Hacc].
    + intros q Hq. apply Hinc. now right.
Qed.

Variable k : num.
Hypothesis k_pos : (Zq 0 < k)%Qc.

Lemma edge_cost_relabel (G : graph) (w w' : weight_key) (ds : list edge_data) :
  (forall e, In e (edges G) ->
     get (w' (f (edata e))) (Zq 1) = scale k (get (w (edata e)) (Zq 1))) ->
  from_edges G ds ->
  edge_cost w' (map f ds) = scale k (edge_cost w ds).
Proof.
  intros Hw [Hne Hds]. unfold edge_cost.
  destruct ds as [|d ds]; [congruence|]. simpl.
  assert (forall d', In d' (d :: ds) ->
            get (w' (f d')) (Zq 1) = scale k (get (w d') (Zq 1))) as Hc.
  { intros d' Hin. destruct (Hds d' Hin) as [e [He <-]]. now apply Hw. }
  rewrite (Hc d) by now left.
  replace (map (fun attr => get (w' attr) (Zq 1)) (map f ds))
    with (map (scale k) (map (fun attr => get (w attr) (Zq 1)) ds)).
  - now apply min_from_scale.
  - rewrite !map_map. apply map_ext_in. intros d' Hin. symmetry.
    apply Hc. now right.
Qed.

Lemma weighted_adj_relabel (G : graph) (w w' : weight_key) (v : node) :
  (forall e, In e (edges G) ->
     get (w' (f (edata e))) (Zq 1) = scale k (get (w (edata e)) (Zq 1))) ->
  weighted_adj (relabel G) w' v = scale_dict k (weighted_adj G w v).
Proof.
  intros Hw. unfold weighted_adj, scale_dict.
  rewrite adj_relabel, !map_map.
  apply map_ext_in. intros [u ds] Hin. simpl. f_equal.
  apply edge_cost_relabel with (G := G); [exact Hw|].
  pose proof (adj_from_edges G v) as Hall. rewrite Forall_forall in Hall.
  apply (Hall _ Hin).
Qed.

(** Searching the relabelled graph by [w'] is searching the graph by [w]. *)
Lemma shortest_path_relabel (G : graph) (w w' : weight_key) (s t : node) :
  (forall e, In e (edges G) ->
     get (w' (f (edata e))) (Zq 1) = scale k (get (w (edata e)) (Zq 1))) ->
  shortest_path (relabel G) s t w' = shortest_path G s t w.
Proof.
  intros Hw. apply shortest_path_scaled with (k := k).
  - exact k_pos.
  - reflexivity.
  - apply relabel_length.
  - intros v. now apply weighted_adj_relabel.
Qed.

Lemma step_relabel (G : graph) (a b : node) :
  step (relabel G) a b -> step G a b.
Proof.
  intros [e [He Hc]]. simpl in He. apply in_map_iff in He.
  destruct He as [e0 [<- He0]]. exists e0. auto.
Qed.

Lemma walk_relabel (G : graph) (s t : node) (p : list node) :
  is_walk (relabel G) s p t -> is_walk G s p t.
Proof.
  induction 1; econstructor; eauto using step_relabel.
Qed.

Lemma reachable_relabel (G : graph) (s t : node) :
  reachable (relabel G) s t -> reachable G s t.
Proof.
  induction 1; econstructor; eauto using step_relabel.
Qed.

End Relabelling.

(** ** Positive factors *)

Lemma Qc_inv_pos (x : num) : (Zq 0 < x)%Qc -> (Zq 0 < / x)%Qc.
Proof.
  unfold Qclt. intros H. simpl. rewrite Qred_correct.
  apply Qinv_lt_0_compat. exact H.
Qed.

Lemma Qc_mul_pos (x y : num) :
  (Zq 0 < x)%Qc -> (Zq 0 < y)%Qc -> (Zq 0 < x * y)%Qc.
Proof.
  intros Hx Hy.
  replace (Zq 0) with (Zq 0 * y)%Qc by apply Qcmult_0_l.
  now apply Qcmult_lt_compat_r.
Qed.

Lemma time_factor_pos (speed_kph : option num) :
  (Zq 0 < time_factor speed_kph)%Qc.
Proof.
  unfold time_factor.
  destruct (num_ltb (Zq 0) (get speed_kph (Zq 30))) eqn:E.
  - apply num_ltb_lt in E. apply Qc_inv_pos.
    unfold Qcdiv. apply Qc_mul_pos; [apply Qc_mul_pos|]; auto.
    + now vm_compute.
    + apply Qc_inv_pos. now vm_compute.
  - apply Qc_inv_pos. now vm_compute.
Qed.

Lemma one_pos : (Zq 0 < Zq 1)%Qc.
Proof. now vm_compute. Qed.

(** ** The three searches *)

Lemma Forall2_map_r (A B : Type) (R : A -> B -> Prop) (g : A -> B) (l : list A) :
  (forall x, R x (g x)) -> Forall2 R l (map g l).
Proof. intros HR. induction l; simpl; constructor; auto. Qed.

Section Routes.

Context {Sh : Shapely} {O : OSMnx}.

Lemma travel_time_scale (d : edge_data) (len : num) :
  d_length d = Some len ->
  travel_time d = scale (time_factor (d_speed_kph d)) len.
Proof.
  intros E. unfold travel_time, time_factor, scale. rewrite E. simpl.
  destruct (num_ltb _ _); reflexivity.
Qed.

(** Without a hazard penalty the safe weight of a measured edge is its
    length: [length * (1 + 0)]. *)
Lemma safe_cost_length (d : edge_data) (len : num) :
  d_length d = Some len ->
  get (d_hazard_penalty d) (Zq 0) = Zq 0 ->
  safe_cost d = len.
Proof.
  intros E Hp. unfold safe_cost. rewrite E, Hp. simpl.
  change (@eq Qc (len * (1 + 0))%Qc len). ring.
Qed.

Lemma travel_time_rule (d : edge_data) : time_rule d (Some (travel_time d)).
Proof.
  unfold time_rule, travel_time. repeat split.
  - intros len -> Hs. apply num_ltb_lt in Hs. now rewrite Hs.
  - intros len -> Hs. simpl.
    destruct (num_ltb _ _) eqn:E; [|reflexivity].
    apply num_ltb_lt in E. contradiction.
  - intros ->. reflexivity.
Qed.

Lemma route_relabel (f : edge_data -> edge_data) (g : graph)
  (origin target : Coord) (w w' : weight_key) :
  (forall s t, shortest_path (relabel f g) s t w' = shortest_path g s t w) ->
  route (relabel f g) origin target w' = route g origin target w.
Proof.
  intros E. unfold route.
  change (resolve (relabel f g)) with (resolve g).
  destruct (resolve g origin) as [on|]; [|reflexivity].
  destruct (resolve g target) as [tn|]; [|reflexivity].
  rewrite E. reflexivity.
Qed.

Lemma scale_one (x : num) : scale (Zq 1) x = x.
Proof. unfold scale. apply Qcmult_1_r. Qed.

(** Relabelling that leaves the weights as they are leaves the route as it
    is. *)
Lemma route_reweigh (f : edge_data -> edge_data) (g : graph)
  (origin target : Coord) (w w' : weight_key) :
  (forall e, In e (edges g) ->
     get (w' (f (edata e))) (Zq 1) = get (w (edata e)) (Zq 1)) ->
  route (relabel f g) origin target w' = route g origin target w.
Proof.
  intros Hw. apply route_relabel. intros s t.
  apply shortest_path_relabel with (k := Zq 1); [apply one_pos|].
  intros e He. rewrite scale_one. now apply Hw.
Qed.

Lemma route_returns (g : graph) (origin target : Coord) (w : weight_key) :
  exists r, route g origin target w = Done r.
Proof.
  unfold route.
  destruct (resolve g origin) as [on|]; [|eexists; reflexivity].
  destruct (resolve g target) as [tn|]; [|eexists; reflexivity].
  destruct (shortest_path_returns g on tn w) as [[p|e] ->];
    eexists; reflexivity.
Qed.

Lemma route_walk (g : graph) (origin target : Coord) (w : weight_key)
  (coords : list Coord) :
  route g origin target w = Done (Ok coords) ->
  exists on tn p,
    resolve g origin = Ok on /\ resolve g target = Ok tn
    /\ is_walk g on p tn
    /\ coords = _nodes_to_coords g p origin target.
Proof.
  unfold route.
  destruct (resolve g origin) as [on|]; [|discriminate].
  destruct (resolve g target) as [tn|]; [|discriminate].
  destruct (shortest_path g on tn w) as [[p|e]|] eqn:E; try discriminate.
  intros [= <-]. exists on, tn, p. repeat split. now apply shortest_path_walk in E.
Qed.

Lemma route_unreachable (g : graph) (origin target : Coord) (w : weight_key)
  (on tn : node) :
  resolve g origin = Ok on -> resolve g target = Ok tn ->
  ~ reachable g on tn ->
  exists e, route g origin target w = Done (Raise e).
Proof.
  intros Ho Ht Hn. unfold route. rewrite Ho, Ht.
  destruct (shortest_path_unreachable w Hn) as [e ->]. now exists e.
Qed.

(** C2 (amended). On a multigraph the fastest search writes, for every
    edge, [length / (speed * 1000 / 3600)] under ["time"], where [speed]
    is the edge's [speed_kph] or 30 when it has none, whenever the edge has
    a length and that speed is positive; [length / 10] when the speed is
    not positive, and [100 / 10] when the edge has no length.  Nothing
    else changes. *)
Theorem fastest_time_written (g : graph) (origin target : Coord) :
  is_multigraph g = true ->
  exists g' r,
    compute_fastest_path (Some g) origin target = Done (Some g', r)
    /\ nodes g' = nodes g
    /\ Forall2 (fun e e' =>
         same_but_time e e' /\ time_rule (edata e) (d_time (edata e')))
       (edges g) (edges g').
Proof.
  intros Hm. unfold compute_fastest_path, annotate_time.
  rewrite annotate_multigraph by exact Hm.
  set (g' := relabel _ g).
  destruct (route_returns g' origin target d_time) as [r Hr]. rewrite Hr.
  exists g'. destruct r as [coords|e]; eexists; (split; [reflexivity|]);
    (split; [reflexivity|]); apply Forall2_map_r; intros e0;
    (split; [repeat split | apply travel_time_rule]).
Qed.

(** C3. When the target node cannot be reached from the origin node, each
    of the three searches returns [None]: no exception escapes and no
    coordinate list is returned. *)
Theorem no_path_outcome (g : graph) (origin target : Coord) (on tn : node) :
  resolve g origin = Ok on ->
  resolve g target = Ok tn ->
  ~ reachable g on tn ->
  compute_shortest_path (Some g) origin target d_length = Done (Some g, None)
  /\ (exists g', compute_fastest_path (Some g) origin target = Done (Some g', None))
  /\ (exists g', compute_safest_path (Some g) origin target = Done (Some g', None)).
Proof.
  intros Ho Ht Hn.
  assert (forall f w, exists e,
            route (relabel f g) origin target w = Done (Raise e)) as Hrel.
  { intros f w. apply route_unreachable with (on := on) (tn := tn); auto.
    intros Hr. apply Hn. eapply reachable_relabel, Hr. }
  split; [|split].
  - unfold compute_shortest_path.
    destruct (@route_unreachable g origin target d_length on tn Ho Ht Hn)
      as [e ->].
    reflexivity.
  - unfold compute_fastest_path, annotate_time.
    destruct (is_multigraph g) eqn:Hm.
    + rewrite annotate_multigraph by exact Hm.
      destruct (Hrel (fun data => set_time data (travel_time data)) d_time)
        as [e ->].
      eexists. reflexivity.
    + rewrite annotate_simple by exact Hm. eexists. reflexivity.
  - unfold compute_safest_path, annotate_safe_weight.
    destruct (is_multigraph g) eqn:Hm.
    + rewrite annotate_multigraph by exact Hm.
      destruct (Hrel (fun data => set_safe_weight data (safe_cost data))
                  d_safe_weight) as [e ->].
      eexists. reflexivity.
    + rewrite annotate_simple by exact Hm. eexists. reflexivity.
Qed.

(** C4 (amended). On a multigraph in which every edge carries a length and
    has a zero (or no) hazard penalty, the safest search returns what the
    shortest search returns: the same route, or [None] when the shortest
    search returns [None].  The weight it writes, [length * (1 + 0)], is
    the length itself, so both searches read the same weights.  The
    fastest search is not part of the statement: the times it writes are
    quotients, which the program rounds, and the totals of rounded times
    need not compare as the totals of the lengths do
    ([Binary64.rounded_times_reorder]). *)
Theorem degenerate_equivalence (g : graph) (origin target : Coord) :
  is_multigraph g = true ->
  (forall e, In e (edges g) ->
     d_length (edata e) <> None
     /\ get (d_hazard_penalty (edata e)) (Zq 0) = Zq 0) ->
  exists r gs,
    compute_shortest_path (Some g) origin target d_length = Done (Some g, r)
    /\ compute_safest_path (Some g) origin target = Done (Some gs, r).
Proof.
  intros Hm Hall.
  unfold compute_shortest_path, compute_safest_path, annotate_safe_weight.
  rewrite annotate_multigraph by exact Hm.
  rewrite route_reweigh with (w := d_length).
  2:{ intros e He. destruct (Hall e He) as (Hl & Hp).
      destruct (d_length (edata e)) as [len|] eqn:El; [|congruence].
      simpl. now rewrite (safe_cost_length _ El Hp). }
  destruct (route_returns g origin target d_length) as [[coords|e] ->]; simpl.
  - exists (Some coords). eexists. split; reflexivity.
  - exists None. eexists. split; reflexivity.
Qed.

(** C7 (amended). The searches do not look at the sign of [length] or
    [hazard_penalty].  On every graph, whatever its weights, the shortest
    and the safest search return: either [None], or the coordinates of a
    walk of the graph from the resolved origin to the resolved target. *)
Theorem search_returns_walk_or_none (g : graph) (origin target : Coord) :
  (exists r,
     compute_shortest_path (Some g) origin target d_length = Done (Some g, r)
     /\ forall coords, r = Some coords ->
        exists on tn p,
          resolve g origin = Ok on /\ resolve g target = Ok tn
          /\ is_walk g on p tn
          /\ coords = _nodes_to_coords g p origin target)
  /\ (exists g' r,
       compute_safest_path (Some g) origin target = Done (Some g', r)
       /\ forall coords, r = Some coords ->
          exists on tn p,
            resolve g origin = Ok on /\ resolve g target = Ok tn
            /\ is_walk g on p tn
            /\ coords = _nodes_to_coords g p origin target).
Proof.
  split.
  - unfold compute_shortest_path.
    destruct (route_returns g origin target d_length) as [[coords|e] Hr];
      rewrite Hr; simpl.
    + eexists. split; [reflexivity|]. intros c [= <-]. now apply route_walk in Hr.
    + eexists. split; [reflexivity|]. discriminate.
  - unfold compute_safest_path, annotate_safe_weight.
    destruct (is_multigraph g) eqn:Hm.
    + rewrite annotate_multigraph by exact Hm.
      set (g' := relabel _ g).
      destruct (route_returns g' origin target d_safe_weight) as [[coords|e] Hr];
        rewrite Hr; simpl.
      * eexists. eexists. split; [reflexivity|]. intros c [= <-].
        apply route_walk in Hr. destruct Hr as (on & tn & p & Ho & Ht & Hw & Hc).
        exists on, tn, p. repeat split; auto. eapply walk_relabel, Hw.
      * eexists. eexists. split; [reflexivity|]. discriminate.
    + rewrite annotate_simple by exact Hm.
      eexists. eexists. split; [reflexivity|]. discriminate.
Qed.

End Routes.

(** ** The hazard filter on graphs without parallel edges

    When no two edges join the same pair of nodes, [remove_edge(u, v)]
    removes the edge that was tested, and the filter keeps exactly the
    edges that are not in a hazard. *)

Lemma remove_last_none (A : Type) (p : A -> bool) (l : list A) :
  (forall x, In x l -> p x = false) -> remove_last p l = None.
Proof.
  induction l as [|x l IH]; intros Hp; simpl; [reflexivity|].
  rewrite IH by (intros y Hy; apply Hp; now right).
  now rewrite Hp by now left.
Qed.

Lemma remove_last_unique (A : Type) (p : A -> bool) (l1 l2 : list A) (e : A) :
  p e = true -> (forall x, In x (l1 ++ l2) -> p x = false) ->
  remove_last p (l1 ++ e :: l2) = Some (l1 ++ l2).
Proof.
  intros He. induction l1 as [|x l1 IH]; intros Hp; simpl.
  - rewrite remove_last_none by exact Hp. now rewrite He.
  - rewrite IH by (intros y Hy; apply Hp; now right). reflexivity.
Qed.

Lemma filter_filter_same (A : Type) (p : A -> bool) (l : list A) :
  filter p (filter p l) = filter p l.
Proof.
  induction l as [|x l IH]; simpl; [reflexivity|].
  destruct (p x) eqn:E; simpl; [rewrite E|]; now rewrite ?IH.
Qed.

Lemma filter_none (A : Type) (p : A -> bool) (l : list A) :
  filter p (filter (fun x => negb (p x)) l) = [].
Proof.
  induction l as [|x l IH]; simpl; [reflexivity|].
  destruct (p x) eqn:E; simpl; [|rewrite E]; exact IH.
Qed.

Lemma NoDup_filter_keep (A : Type) (p : A -> bool) (l : list A) :
  NoDup l -> NoDup (filter p l).
Proof.
  induction 1 as [|x l Hx Hl IH]; simpl; [constructor|].
  destruct (p x); [|exact IH]. constructor; [|exact IH].
  intros Hin. apply filter_In in Hin. tauto.
Qed.

Section HazardFilterSimple.

Context {Sh : Shapely}.

Lemma test_polygons_first_match (polys : list Polygon) (m : Point)
  (u v : node) (st : graph * Z) :
  test_polygons polys m u v st =
  if existsb (fun poly => contains poly m) polys
  then (let! G' := remove_edge (fst st) u v in Ok (G', (snd st + 1)%Z))
  else Ok st.
Proof.
  induction polys as [|poly rest IH]; simpl; [reflexivity|].
  destruct (contains poly m); simpl; [reflexivity | exact IH].
Qed.

Variable g : graph.
Variable polys : list Polygon.
Hypothesis g_simple : no_parallel_edges g.

Let hit (e : edge) : bool := in_hazard g polys e.
Let miss (e : edge) : bool := negb (in_hazard g polys e).

(** The state of the loop when the edges [done] have been visited and
    [todo] are left. *)
Definition visited (done todo : list edge) (st : graph * Z) : Prop :=
  nodes (fst st) = nodes g
  /\ is_multigraph (fst st) = is_multigraph g
  /\ is_directed (fst st) = is_directed g
  /\ edges (fst st) = filter miss done ++ todo
  /\ snd st = Z.of_nat (length (filter hit done)).

Lemma in_hazard_nodes (G : graph) (e : edge) :
  nodes G = nodes g -> in_hazard G polys e = in_hazard g polys e.
Proof.
  intros Hn. unfold in_hazard, representative_point, edge_midpoint,
    nodes_getitem. now rewrite Hn.
Qed.

Lemma visited_keep (done todo : list edge) (e : edge) :
  hit e = false ->
  filter miss (done ++ [e]) ++ todo = filter miss done ++ e :: todo
  /\ length (filter hit (done ++ [e])) = length (filter hit done).
Proof.
  intros E. unfold miss, hit in *. rewrite !filter_app, length_app. simpl.
  rewrite E. simpl. rewrite <- app_assoc. split; [reflexivity | lia].
Qed.

Lemma visited_drop (done : list edge) (e : edge) :
  hit e = true ->
  filter miss (done ++ [e]) = filter miss done
  /\ length (filter hit (done ++ [e])) = S (length (filter hit done)).
Proof.
  intros E. unfold miss, hit in *. rewrite !filter_app, length_app. simpl.
  rewrite E. simpl. rewrite app_nil_r. split; [reflexivity | lia].
Qed.

Lemma block_step_visited (done todo : list edge) (e : edge) (st : graph * Z) :
  edges g = done ++ e :: todo ->
  visited done (e :: todo) st ->
  visited (done ++ [e]) todo (block_step polys st e).
Proof.
  intros Hg (Hn & Hm & Hd & He & Hc).
  destruct g_simple as [Hnd Hpar].
  assert (hit e =
          match edge_midpoint (fst st) (eu e) (ev e) (edata e) with
          | Ok m => existsb (fun poly => contains poly m) polys
          | Raise _ => false
          end) as Hit.
  { unfold hit. rewrite <- (in_hazard_nodes (fst st) e Hn). reflexivity. }
  assert (hit e = false -> visited (done ++ [e]) todo st) as Hkeep.
  { intros E. destruct (visited_keep done todo e E) as [E1 E2].
    repeat split; auto.
    - now rewrite E1.
    - now rewrite E2. }
  unfold block_step.
  destruct (edge_midpoint (fst st) (eu e) (ev e) (edata e)) as [m|x]; simpl;
    [|now apply Hkeep].
  rewrite test_polygons_first_match.
  destruct (existsb (fun poly => contains poly m) polys); [|now apply Hkeep].
  destruct (visited_drop done e Hit) as [E1 E2].
  unfold remove_edge. rewrite He.
  rewrite remove_last_unique.
  - simpl. repeat split; auto; simpl.
    + now rewrite E1.
    + rewrite E2, Hc. lia.
  - unfold connects. now rewrite !node_eqb_refl.
  - intros x Hx.
    destruct (connects (fst st) (eu e) (ev e) x) eqn:Ec; [|reflexivity].
    exfalso.
    assert (In x (done ++ todo)) as Hx'.
    { apply in_app_or in Hx. apply in_or_app.
      destruct Hx as [Hx|Hx]; [left | now right].
      apply filter_In in Hx. tauto. }
    assert (e = x) as <-.
    { apply Hpar.
      - rewrite Hg. apply in_or_app. right. now left.
      - rewrite Hg. apply in_app_or in Hx'. apply in_or_app.
        destruct Hx'; [now left | right; now right].
      - unfold connects in *. now rewrite <- Hd. }
    rewrite Hg in Hnd. apply NoDup_remove_2 in Hnd. contradiction.
Qed.

Lemma block_loop_visited (todo done : list edge) (st : graph * Z) :
  edges g = done ++ todo ->
  visited done todo st ->
  visited (done ++ todo) [] (fold_left (block_step polys) todo st).
Proof.
  revert done st. induction todo as [|e todo IH]; intros done st Hg Hv; simpl.
  - now rewrite app_nil_r.
  - replace (done ++ e :: todo) with ((done ++ [e]) ++ todo)
      by (rewrite <- app_assoc; reflexivity).
    apply IH.
    + rewrite <- app_assoc. exact Hg.
    + now apply block_step_visited.
Qed.

(** On a graph without parallel edges the filter keeps exactly the edges
    that are not in a hazard, in their order, and counts the others. *)
Lemma block_edges_simple :
  exists g',
    block_edges_by_hazards (Some g) (Some polys)
    = (Some g', Z.of_nat (length (filter hit (edges g))))
    /\ nodes g' = nodes g
    /\ is_multigraph g' = is_multigraph g
    /\ is_directed g' = is_directed g
    /\ edges g' = filter miss (edges g).
Proof.
  unfold block_edges_by_hazards.
  pose proof (@block_loop_visited (edges g) [] (g, 0%Z) eq_refl) as Hv.
  destruct (fold_left (block_step polys) (edges g) (g, 0%Z)) as [g' blocked].
  destruct Hv as (Hn & Hm & Hd & He & Hc).
  { repeat split; reflexivity. }
  simpl in *. exists g'. rewrite Hc, He, app_nil_r. repeat split; auto.
Qed.

End HazardFilterSimple.

Section HazardFilterSimpleResults.

Context {Sh : Shapely}.

(** On a graph without parallel edges: every edge the filter removes has
    its representative point in some polygon, every edge it keeps has none
    there, and the count is the number of removed edges. *)
Theorem block_edges_simple_sound (g : graph) (polys : list Polygon) :
  no_parallel_edges g ->
  exists g' blocked,
    block_edges_by_hazards (Some g) (Some polys) = (Some g', blocked)
    /\ (forall e, In e (edges g) -> ~ In e (edges g') ->
          in_hazard g polys e = true)
    /\ (forall e, In e (edges g') ->
          In e (edges g) /\ in_hazard g polys e = false).
Proof.
  intros Hs. destruct (block_edges_simple polys Hs) as (g' & Hb & _ & _ & _ & He).
  exists g'. eexists. split; [exact Hb|]. rewrite He. split.
  - intros e Hin Hout.
    destruct (in_hazard g polys e) eqn:E; [reflexivity|].
    exfalso. apply Hout. apply filter_In. now rewrite E.
  - intros e Hin. apply filter_In in Hin. destruct Hin as [Hin Hm].
    split; [assumption|]. now apply negb_true_iff in Hm.
Qed.

(** On a graph without parallel edges a second run removes nothing. *)
Theorem block_edges_simple_idempotent (g : graph) (polys : list Polygon) :
  no_parallel_edges g ->
  exists g' blocked,
    block_edges_by_hazards (Some g) (Some polys) = (Some g', blocked)
    /\ block_edges_by_hazards (Some g') (Some polys) = (Some g', 0%Z).
Proof.
  intros Hs.
  destruct (block_edges_simple polys Hs) as (g' & Hb & Hn & Hm & Hd & He).
  assert (no_parallel_edges g') as Hs'.
  { destruct Hs as [Hnd Hpar]. split.
    - rewrite He. now apply NoDup_filter_keep.
    - intros e1 e2 H1 H2 Hc. rewrite He in H1, H2.
      apply filter_In in H1, H2. apply Hpar; try tauto.
      unfold connects in *. now rewrite <- Hd. }
  destruct (block_edges_simple polys Hs') as (g'' & Hb' & Hn' & Hm' & Hd' & He').
  exists g'. eexists. split; [exact Hb|]. rewrite Hb'.
  assert (forall e, in_hazard g' polys e = in_hazard g polys e) as Hh.
  { intros e. unfold in_hazard, representative_point, edge_midpoint,
      nodes_getitem. now rewrite Hn. }
  assert (edges g'' = edges g') as Ee.
  { rewrite He', He.
    rewrite (filter_ext _ (fun e => negb (in_hazard g polys e)))
      by (intros e; now rewrite Hh).
    apply filter_filter_same. }
  assert (filter (fun e => in_hazard g' polys e) (edges g') = []) as Ec.
  { rewrite He.
    rewrite (filter_ext _ (fun e => in_hazard g polys e)) by exact Hh.
    apply filter_none. }
  rewrite Ec. simpl. f_equal. f_equal.
  destruct g'', g'. simpl in *. congruence.
Qed.

End HazardFilterSimpleResults.

(** ** Graph acquisition *)

Section Acquisition.

Context {Sh : Shapely} {O : OSMnx}.

(** Two grid nodes are neighbours: same row and adjacent columns, or same
    column and adjacent rows. *)
Definition grid_neighbours (i j i' j' : nat) : bool :=
  (Nat.eqb i i' && (Nat.eqb j' (S j) || Nat.eqb j (S j')))
  || (Nat.eqb j j' && (Nat.eqb i' (S i) || Nat.eqb i (S i'))).

(** The number of edges of [G] that join [a] and [b]. *)
Definition edges_between (G : graph) (a b : node) : nat :=
  length (filter (connects G a b) (edges G)).

Definition grid_adjacency_check (size : nat) : bool :=
  let G := build_grid_graph size in
  let range := seq 0 size in
  forallb (fun i => forallb (fun j => forallb (fun i' => forallb (fun j' =>
    Nat.eqb (edges_between G (grid_node i j) (grid_node i' j'))
            (if grid_neighbours i j i' j' then 1 else 0))
    range) range) range) range.

Lemma build_grid_graph_length (size : nat) (e : edge) :
  In e (edges (build_grid_graph size)) -> d_length (edata e) = Some (Zq 1).
Proof.
  unfold build_grid_graph. simpl. rewrite in_map_iff.
  intros [e0 [<- _]]. reflexivity.
Qed.

Lemma grid_adjacency_sound (size i j i' j' : nat) :
  grid_adjacency_check size = true ->
  i < size -> j < size -> i' < size -> j' < size ->
  edges_between (build_grid_graph size) (grid_node i j) (grid_node i' j')
  = if grid_neighbours i j i' j' then 1 else 0.
Proof.
  intros Hc Hi Hj Hi' Hj'.
  unfold grid_adjacency_check in Hc.
  assert (forall n, n < size -> In n (seq 0 size)) as Hin
    by (intros n Hn; apply in_seq; lia).
  apply (proj1 (forallb_forall _ _)) with (x := i) in Hc; [|auto].
  apply (proj1 (forallb_forall _ _)) with (x := j) in Hc; [|auto].
  apply (proj1 (forallb_forall _ _)) with (x := i') in Hc; [|auto].
  apply (proj1 (forallb_forall _ _)) with (x := j') in Hc; [|auto].
  now apply Nat.eqb_eq.
Qed.

Lemma grid_10_checked : grid_adjacency_check 10 = true.
Proof. vm_compute. reflexivity. Qed.

Lemma grid_10_adjacency (i j i' j' : nat) :
  i < 10 -> j < 10 -> i' < 10 -> j' < 10 ->
  edges_between (build_grid_graph 10) (grid_node i j) (grid_node i' j')
  = if grid_neighbours i j i' j' then 1 else 0.
Proof. apply grid_adjacency_sound, grid_10_checked. Qed.

(** The fallback grid: 100 nodes (row, column) without coordinates
    attributes, 180 edges, each of length 1, one between any two
    neighbours and none elsewhere. *)
Theorem grid_10_shape :
  let G := build_grid_graph 10 in
  is_multigraph G = false /\ is_directed G = false
  /\ map fst (nodes G)
     = flat_map (fun i => map (fun j => grid_node i j) (seq 0 10)) (seq 0 10)
  /\ length (nodes G) = 100
  /\ length (edges G) = 180
  /\ (forall e, In e (edges G) -> d_length (edata e) = Some (Zq 1))
  /\ (forall i j i' j', i < 10 -> j < 10 -> i' < 10 -> j' < 10 ->
        edges_between G (grid_node i j) (grid_node i' j')
        = if grid_neighbours i j i' j' then 1 else 0).
Proof.
  split; [reflexivity|].
  split; [reflexivity|].
  split; [vm_compute; reflexivity|].
  split; [vm_compute; reflexivity|].
  split; [vm_compute; reflexivity|].
  split.
  - apply build_grid_graph_length.
  - apply grid_10_adjacency.
Qed.

(** When the cache file is not used, [load_graph] returns a graph: the
    one fetched and saved, or the 10x10 grid when fetching or saving
    fails. *)
Theorem load_graph_fallback (online : bool) (center : Coord) (dist : num) :
  negb online && path_exists = false ->
  exists G,
    load_graph online center dist = Ok G
    /\ ((forall G0, graph_from_point center dist = Ok G0 ->
           save_graphml G0 <> Ok tt) ->
        G = build_grid_graph 10).
Proof.
  intros Hc. unfold load_graph. rewrite Hc.
  destruct (graph_from_point center dist) as [G0|e] eqn:Ef; simpl.
  - destruct (save_graphml G0) as [[]|e] eqn:Es; simpl.
    + exists G0. split; [reflexivity|]. intros Hf.
      exfalso. now apply (Hf G0).
    + eexists. split; reflexivity.
  - eexists. split; reflexivity.
Qed.

(** When the cache file is used, [load_graph] is [ox.load_graphml]: an
    exception of the loader is an exception of [load_graph]. *)
Theorem load_graph_cached (center : Coord) (dist : num) :
  path_exists = true ->
  load_graph false center dist = load_graphml.
Proof.
  intros Hp. unfold load_graph. now rewrite Hp.
Qed.

End Acquisition.

(** * Further properties *)

(** ** The search finds a cheapest path

    With weights that are not negative, the path found by the search has
    the smallest total weight among all walks from the source to the
    target. *)

(** [wpath succ s p t x]: [p] is a walk from [s] to [t] along the weighted
    adjacency [succ], of total weight [x]. *)
Inductive wpath (succ : node -> list (node * num)) (s : node)
  : list node -> node -> num -> Prop :=
| wpath_start : wpath succ s [s] s (Zq 0)
| wpath_snoc p v u c x :
    wpath succ s p v x -> In (u, c) (succ v) ->
    wpath succ s (p ++ [u]) u (x + c)%Qc.

Lemma num_ltb_ge (a b : num) : num_ltb a b = false -> (b <= a)%Qc.
Proof.
  intros E. apply Qcnot_lt_le. intros H. apply num_ltb_lt in H. congruence.
Qed.

Lemma num_ltb_le (a b : num) : num_ltb a b = true -> (a <= b)%Qc.
Proof. intros E. apply Qclt_le_weak, num_ltb_lt, E. Qed.

Lemma Qc_le_plus_nonneg (a c : num) : (Zq 0 <= c)%Qc -> (a <= a + c)%Qc.
Proof.
  intros H. replace a with (a + Zq 0)%Qc at 1 by apply Qcplus_0_r.
  apply Qcplus_le_compat; [apply Qcle_refl | exact H].
Qed.

Lemma Qc_plus_nonneg (a c : num) :
  (Zq 0 <= a)%Qc -> (Zq 0 <= c)%Qc -> (Zq 0 <= a + c)%Qc.
Proof.
  intros Ha Hc. eapply Qcle_trans; [exact Ha | now apply Qc_le_plus_nonneg].
Qed.

Lemma entry_ltb_le (d1 d2 : num) (c1 c2 : nat) (n1 n2 : node) :
  entry_ltb (d1, c1, n1) (d2, c2, n2) = true -> (d1 <= d2)%Qc.
Proof.
  simpl. intros H. apply orb_true_iff in H. destruct H as [H|H].
  - now apply num_ltb_le.
  - apply andb_true_iff in H. destruct H as [H _].
    apply num_eqb_eq in H. subst. apply Qcle_refl.
Qed.

Lemma entry_ltb_ge (d1 d2 : num) (c1 c2 : nat) (n1 n2 : node) :
  entry_ltb (d1, c1, n1) (d2, c2, n2) = false -> (d2 <= d1)%Qc.
Proof.
  simpl. intros H. apply orb_false_iff in H. destruct H as [H _].
  now apply num_ltb_ge.
Qed.

(** [heappop] returns an entry of the heap that no other entry is below,
    and leaves the others. *)
Lemma pop_min_spec (l rest : list entry) (d : num) (c : nat) (v : node) :
  pop_min l = Some ((d, c, v), rest) ->
  (forall e, In e l <-> e = (d, c, v) \/ In e rest)
  /\ (forall d' c' v', In (d', c', v') l -> (d <= d')%Qc).
Proof.
  revert rest d c v. induction l as [|x l IH]; intros rest d c v; simpl;
    [discriminate|].
  destruct (pop_min l) as [[[[dm cm] vm] r']|] eqn:E.
  - destruct (IH _ _ _ _ eq_refl) as [Hin Hmin].
    destruct x as [[dx cx] vx].
    destruct (entry_ltb (dm, cm, vm) (dx, cx, vx)) eqn:El;
      intros [= <- <- <- <-].
    + split.
      * intros e. simpl. rewrite Hin. tauto.
      * intros d' c' v' [[= <- <- <-]|H'].
        -- eapply entry_ltb_le, El.
        -- eapply Hmin, H'.
    + split.
      * intros e. simpl. intuition congruence.
      * intros d' c' v' [[= <- <- <-]|H'].
        -- apply Qcle_refl.
        -- eapply Qcle_trans; [eapply entry_ltb_ge, El | eapply Hmin, H'].
  - intros H. injection H as Hx Hr. subst x rest. destruct l as [|y l].
    + split.
      * intros e. simpl. intuition congruence.
      * intros d' c' v' [[= <- <- <-]|[]]. apply Qcle_refl.
    + simpl in E. destruct (pop_min l) as [[m r']|]; [|discriminate].
      destruct (entry_ltb m y); discriminate.
Qed.

Section CheapestPath.

Variable succ : node -> list (node * num).
Variable s : node.
Hypothesis succ_nonneg : forall v u c, In (u, c) (succ v) -> (Zq 0 <= c)%Qc.

Lemma wpath_nonneg (p : list node) (t : node) (x : num) :
  wpath succ s p t x -> (Zq 0 <= x)%Qc.
Proof.
  induction 1 as [|p v u c x H IH Hin].
  - apply Qcle_refl.
  - apply Qc_plus_nonneg; [exact IH | eapply succ_nonneg, Hin].
Qed.

(** What the dictionaries and the heap of the search keep between two
    iterations: [seen] and [paths] describe walks that exist, [dist] holds
    final distances, which no walk beats, and every node that is seen but
    not final waits in the heap with its current distance. *)
Record core (st : dstate) : Prop := {
  core_paths : forall u x, dget (seen st) u = Some x ->
    exists p, dget (paths st) u = Some p /\ wpath succ s p u x;
  core_dist : forall u d, dget (dist st) u = Some d ->
    dget (seen st) u = Some d;
  core_fringe : forall d c u, In (d, c, u) (fringe st) ->
    exists x, dget (seen st) u = Some x /\ (x <= d)%Qc;
  core_pending : forall u x, dget (seen st) u = Some x ->
    dget (dist st) u = None -> exists c, In (x, c, u) (fringe st);
  core_optimal : forall u d, dget (dist st) u = Some d ->
    forall q x, wpath succ s q u x -> (d <= x)%Qc;
  core_source : dget (seen st) s = Some (Zq 0)
}.

(** The edges of [v] in [l] have been relaxed. *)
Definition relaxed (st : dstate) (v : node) (l : list (node * num)) : Prop :=
  forall dv, dget (dist st) v = Some dv ->
  forall u c, In (u, c) l ->
  exists y, dget (seen st) u = Some y /\ (y <= dv + c)%Qc.

Definition settled (st : dstate) : Prop :=
  core st /\ forall v, relaxed st v (succ v).

Definition relaxing (st : dstate) (v : node) (done : list (node * num)) : Prop :=
  core st
  /\ (forall v', v' <> v -> relaxed st v' (succ v'))
  /\ relaxed st v done.

(** A walk ends at a final node, or costs at least what some node still
    waiting in the heap was seen at. *)
Lemma frontier (st : dstate) (q : list node) (u : node) (x : num) :
  settled st -> wpath succ s q u x ->
  (exists d, dget (dist st) u = Some d /\ (d <= x)%Qc)
  \/ (exists y z, dget (dist st) y = None /\ dget (seen st) y = Some z
                  /\ (z <= x)%Qc).
Proof.
  intros [Hc Hr] Hw. induction Hw as [|p v u c x Hw IH Hin].
  - destruct (dget (dist st) s) as [d|] eqn:Ed.
    + left. exists d. split; [reflexivity|].
      apply (core_dist Hc) in Ed. rewrite (core_source Hc) in Ed.
      injection Ed as <-. apply Qcle_refl.
    + right. exists s, (Zq 0). repeat split; auto using core_source.
      apply Qcle_refl.
  - destruct IH as [[d [Ed Hd]]|[y [z [Ey [Ez Hz]]]]].
    + destruct (Hr v d Ed u c Hin) as [y [Ey Hy]].
      assert (y <= x + c)%Qc as Hyx.
      { eapply Qcle_trans; [exact Hy|].
        apply Qcplus_le_compat; [exact Hd | apply Qcle_refl]. }
      destruct (dget (dist st) u) as [du|] eqn:Eu.
      * left. exists du. split; [reflexivity|].
        apply (core_dist Hc) in Eu. rewrite Ey in Eu. injection Eu as <-.
        exact Hyx.
      * right. exists u, y. auto.
    + right. exists y, z. repeat split; auto.
      eapply Qcle_trans; [exact Hz|].
      apply Qc_le_plus_nonneg. eapply succ_nonneg, Hin.
Qed.

Lemma relaxed_weaken (st st' : dstate) (v : node) (l : list (node * num)) :
  dist st' = dist st ->
  (forall u y, dget (seen st) u = Some y ->
     exists y', dget (seen st') u = Some y' /\ (y' <= y)%Qc) ->
  relaxed st v l -> relaxed st' v l.
Proof.
  intros Hd Hs Hr dv Ev u c Hin. rewrite Hd in Ev.
  destruct (Hr dv Ev u c Hin) as [y [Ey Hy]].
  destruct (Hs u y Ey) as [y' [Ey' Hy']].
  exists y'. split; [exact Ey'|]. eapply Qcle_trans; eassumption.
Qed.

(** Pushing [u] at a distance below the one it was seen at. *)
Lemma push_relaxing (st st' : dstate) (v u : node) (dv c : num)
  (done : list (node * num)) :
  relaxing st v done ->
  dget (dist st) v = Some dv ->
  In (u, c) (succ v) ->
  dget (dist st) u = None ->
  (forall sv, dget (seen st) u = Some sv -> num_ltb (dv + c)%Qc sv = true) ->
  push_node st v u (dv + c)%Qc = Ok st' ->
  relaxing st' v ((u, c) :: done).
Proof.
  intros (Hc & Ho & Hv) Ev Hin Eu Hlt. unfold push_node.
  destruct (dget (paths st) v) as [pv|] eqn:Epv; simpl; [|discriminate].
  intros [= <-].
  destruct (core_paths Hc v (core_dist Hc v Ev)) as [pv' [Epv' Hpv]].
  rewrite Epv in Epv'. injection Epv' as <-.
  assert (forall u' y, dget (seen st) u' = Some y ->
            exists y', dget (dset (seen st) u (dv + c)%Qc) u' = Some y'
                       /\ (y' <= y)%Qc) as Hmono.
  { intros u' y Ey. rewrite dget_dset.
    destruct (node_eqb u u') eqn:E.
    - apply node_eqb_eq in E. subst u'. exists (dv + c)%Qc. split; [reflexivity|].
      now apply num_ltb_le, Hlt.
    - exists y. split; [exact Ey | apply Qcle_refl]. }
  assert (u <> s) as Hus.
  { intros ->. specialize (Hlt _ (core_source Hc)).
    apply num_ltb_lt in Hlt. revert Hlt. apply Qcle_not_lt.
    eapply wpath_nonneg, wpath_snoc; eassumption. }
  split; [|split].
  - constructor; simpl.
    + intros u' x. rewrite !dget_dset.
      destruct (node_eqb u u') eqn:E.
      * apply node_eqb_eq in E. subst u'. intros [= <-].
        eexists. split; [reflexivity|]. now apply wpath_snoc with (v := v).
      * apply (core_paths Hc).
    + intros u' d Ed. rewrite dget_dset.
      destruct (node_eqb u u') eqn:E.
      * apply node_eqb_eq in E. subst u'. congruence.
      * now apply (core_dist Hc).
    + intros d c' u' [[= <- <- <-]|Hf].
      * exists (dv + c)%Qc. rewrite dget_dset, node_eqb_refl.
        split; [reflexivity | apply Qcle_refl].
      * destruct (core_fringe Hc _ _ _ Hf) as [x [Ex Hx]].
        destruct (Hmono u' x Ex) as [y' [Ey' Hy']].
        exists y'. split; [exact Ey'|]. eapply Qcle_trans; eassumption.
    + intros u' x. rewrite dget_dset.
      destruct (node_eqb u u') eqn:E.
      * apply node_eqb_eq in E. subst u'. intros [= <-] _.
        exists (counter st). now left.
      * intros Ex Ed. destruct (core_pending Hc u' Ex Ed) as [c' Hc'].
        exists c'. now right.
    + apply (core_optimal Hc).
    + rewrite dget_dset.
      destruct (node_eqb u s) eqn:E; [apply node_eqb_eq in E; contradiction|].
      apply (core_source Hc).
  - intros v' Hv'. eapply relaxed_weaken with (st := st);
      [reflexivity | exact Hmono | now apply Ho].
  - intros dv' Ev' u' c' [[= <- <-]|Hd]; simpl in *.
    + rewrite Ev in Ev'. injection Ev' as <-.
      exists (dv + c)%Qc. rewrite dget_dset, node_eqb_refl.
      split; [reflexivity | apply Qcle_refl].
    + destruct (Hv dv' Ev' u' c' Hd) as [y [Ey Hy]].
      destruct (Hmono u' y Ey) as [y' [Ey' Hy']].
      exists y'. split; [exact Ey'|]. eapply Qcle_trans; eassumption.
Qed.

Lemma relax_relaxing (st st' : dstate) (v u : node) (dv c : num)
  (done : list (node * num)) :
  relaxing st v done ->
  dget (dist st) v = Some dv ->
  In (u, c) (succ v) ->
  relax v dv st (u, c) = Ok st' ->
  relaxing st' v ((u, c) :: done).
Proof.
  intros Hr Ev Hin. pose proof Hr as (Hc & Ho & Hv). unfold relax.
  assert (forall y, dget (seen st) u = Some y -> (y <= dv + c)%Qc ->
            relaxing st v ((u, c) :: done)) as Hkeep.
  { intros y Ey Hy. split; [exact Hc | split; [exact Ho|]].
    intros dv' Ev' u' c' [[= <- <-]|Hd].
    - rewrite Ev in Ev'. injection Ev' as <-. exists y. auto.
    - now apply Hv. }
  destruct (dget (dist st) u) as [ud|] eqn:Eu.
  - destruct (num_ltb (dv + c)%Qc ud) eqn:El; [discriminate|].
    intros [= <-]. apply Hkeep with (y := ud).
    + now apply (core_dist Hc).
    + now apply num_ltb_ge.
  - destruct (dget (seen st) u) as [sv|] eqn:Es.
    + destruct (num_ltb (dv + c)%Qc sv) eqn:El.
      * apply push_relaxing; auto. intros sv' E'. congruence.
      * intros [= <-]. apply Hkeep with (y := sv); [reflexivity|].
        now apply num_ltb_ge.
    + apply push_relaxing; auto. intros sv' E'. congruence.
Qed.

(** With weights that are not negative no relaxation raises. *)
Lemma relax_succeeds (st : dstate) (v u : node) (dv c : num)
  (done : list (node * num)) :
  relaxing st v done ->
  dget (dist st) v = Some dv ->
  In (u, c) (succ v) ->
  exists st', relax v dv st (u, c) = Ok st'.
Proof.
  intros (Hc & Ho & Hv) Ev Hin. unfold relax.
  destruct (core_paths Hc v (core_dist Hc v Ev)) as [pv [Epv Hpv]].
  assert (forall x, exists st', push_node st v u x = Ok st') as Hpush.
  { intros x. unfold push_node. rewrite Epv. simpl. eexists. reflexivity. }
  destruct (dget (dist st) u) as [ud|] eqn:Eu.
  - destruct (num_ltb (dv + c)%Qc ud) eqn:El; [|eexists; reflexivity].
    exfalso. apply num_ltb_lt in El. revert El. apply Qcle_not_lt.
    eapply (core_optimal Hc); [exact Eu | eapply wpath_snoc; eassumption].
  - destruct (dget (seen st) u) as [sv|].
    + destruct (num_ltb _ _); [apply Hpush | eexists; reflexivity].
    + apply Hpush.
Qed.

Lemma relax_all_relaxing (v : node) (dv : num) (nbrs done : list (node * num))
  (st st' : dstate) :
  (forall uc, In uc nbrs -> In uc (succ v)) ->
  relaxing st v done ->
  dget (dist st) v = Some dv ->
  relax_all v dv nbrs st = Ok st' ->
  relaxing st' v (rev nbrs ++ done).
Proof.
  revert done st. induction nbrs as [|[u c] nbrs IH]; intros done st Hn Hr Ev;
    cbn [relax_all].
  - now intros [= <-].
  - destruct (relax v dv st (u, c)) as [st1|] eqn:E; cbn [bind]; [|discriminate].
    intros E'. cbn [rev]. rewrite <- app_assoc. cbn [app].
    assert (dget (dist st1) v = Some dv) as Ev1.
    { pose proof (relax_shape _ _ _ _ E) as [Hd _]. now rewrite Hd. }
    apply IH with (st := st1); [| |exact Ev1|exact E'].
    + intros uc Huc. apply Hn. now right.
    + eapply relax_relaxing; eauto. apply Hn. now left.
Qed.

Lemma relax_all_succeeds (v : node) (dv : num) (nbrs done : list (node * num))
  (st : dstate) :
  (forall uc, In uc nbrs -> In uc (succ v)) ->
  relaxing st v done ->
  dget (dist st) v = Some dv ->
  exists st', relax_all v dv nbrs st = Ok st'.
Proof.
  revert done st. induction nbrs as [|[u c] nbrs IH]; intros done st Hn Hr Ev;
    cbn [relax_all].
  - eexists. reflexivity.
  - assert (In (u, c) (succ v)) as Hin by (apply Hn; now left).
    edestruct relax_succeeds as [st1 E]; [exact Hr | exact Ev | exact Hin |].
    rewrite E. cbn [bind].
    assert (dget (dist st1) v = Some dv) as Ev1.
    { pose proof (relax_shape _ _ _ _ E) as [Hd _]. now rewrite Hd. }
    apply IH with (done := (u, c) :: done); [| |exact Ev1].
    + intros uc Huc. apply Hn. now right.
    + eapply relax_relaxing; eauto.
Qed.

Lemma relaxing_settled (st : dstate) (v : node) (done : list (node * num)) :
  (forall uc, In uc (succ v) -> In uc done) ->
  relaxing st v done -> settled st.
Proof.
  intros Hd (Hc & Ho & Hv). split; [exact Hc|]. intros v'.
  destruct (node_eqb v' v) eqn:E.
  - apply node_eqb_eq in E. subst v'.
    intros dv Ev u c Hin. apply (Hv dv Ev u c). now apply Hd.
  - apply Ho. now apply node_eqb_neq.
Qed.

(** Popping an entry whose node is final already. *)
Lemma pop_stale (st : dstate) (rest : list entry) (d : num) (c : nat)
  (v : node) (dv : num) :
  settled st ->
  pop_min (fringe st) = Some ((d, c, v), rest) ->
  dget (dist st) v = Some dv ->
  settled (set_fringe st rest).
Proof.
  intros [Hc Hr] Ep Ev. apply pop_min_spec in Ep. destruct Ep as [Hin _].
  split; [|exact Hr]. constructor; simpl.
  - apply (core_paths Hc).
  - apply (core_dist Hc).
  - intros d' c' u Hf. apply (core_fringe Hc d' c' u). apply Hin. now right.
  - intros u x Ex Ed. destruct (core_pending Hc u Ex Ed) as [c' Hc'].
    apply Hin in Hc'. destruct Hc' as [[= -> -> ->]|Hc']; [congruence|].
    now exists c'.
  - apply (core_optimal Hc).
  - apply (core_source Hc).
Qed.

(** Popping an entry whose node is not final yet: its distance is the one
    the node was seen at, and no walk to it is cheaper. *)
Lemma pop_fresh (st : dstate) (rest : list entry) (d : num) (c : nat)
  (v : node) :
  settled st ->
  pop_min (fringe st) = Some ((d, c, v), rest) ->
  dget (dist st) v = None ->
  relaxing (set_dist (set_fringe st rest) v d) v [].
Proof.
  intros Hs Ep Ev. pose proof Hs as [Hc Hr].
  apply pop_min_spec in Ep. destruct Ep as [Hin Hmin].
  assert (In (d, c, v) (fringe st)) as Hpop by (apply Hin; now left).
  assert (dget (seen st) v = Some d) as Esv.
  { destruct (core_fringe Hc _ _ _ Hpop) as [x [Ex Hx]].
    destruct (core_pending Hc v Ex Ev) as [c' Hc'].
    rewrite Ex. f_equal. apply Qcle_antisym; [exact Hx|].
    eapply Hmin, Hc'. }
  assert (forall q x, wpath succ s q v x -> (d <= x)%Qc) as Hopt.
  { intros q x Hw. destruct (frontier Hs Hw) as [[d' [Ed' _]]|[y [z [Ey [Ez Hz]]]]].
    - congruence.
    - destruct (core_pending Hc y Ez Ey) as [c' Hc'].
      eapply Qcle_trans; [eapply Hmin, Hc' | exact Hz]. }
  split; [|split].
  - constructor; simpl.
    + apply (core_paths Hc).
    + intros u du. rewrite dget_dset.
      destruct (node_eqb v u) eqn:E.
      * apply node_eqb_eq in E. subst u. now intros [= <-].
      * apply (core_dist Hc).
    + intros d' c' u Hf. apply (core_fringe Hc d' c' u). apply Hin. now right.
    + intros u x Ex. rewrite dget_dset.
      destruct (node_eqb v u) eqn:E; [discriminate|]. intros Ed.
      destruct (core_pending Hc u Ex Ed) as [c' Hc'].
      apply Hin in Hc'. destruct Hc' as [[= -> -> ->]|Hc'].
      * rewrite node_eqb_refl in E. discriminate.
      * now exists c'.
    + intros u du. rewrite dget_dset.
      destruct (node_eqb v u) eqn:E.
      * apply node_eqb_eq in E. subst u. intros [= <-]. exact Hopt.
      * apply (core_optimal Hc).
    + apply (core_source Hc).
  - intros v' Hv' dv. simpl. rewrite dget_dset.
    destruct (node_eqb v v') eqn:E.
    + apply node_eqb_eq in E. congruence.
    + apply Hr.
  - intros dv _ u c' [].
Qed.

(** The state the loop ends in: the target is final, or nothing is left
    to visit. *)
Definition finished (target : node) (st : dstate) : Prop :=
  core st
  /\ (dget (dist st) target = None -> settled st /\ fringe st = []).

Lemma dijkstra_loop_finished (target : node) (fuel : nat) (st st' : dstate) :
  settled st ->
  dijkstra_loop fuel succ target st = Done (Ok st') ->
  finished target st'.
Proof.
  revert st. induction fuel as [|fuel IH]; intros st Hs; simpl; [discriminate|].
  destruct (pop_min (fringe st)) as [[[[d c] v] rest]|] eqn:Ep.
  - simpl. destruct (dget (dist st) v) as [dv|] eqn:Ev.
    + apply IH. eapply pop_stale; eassumption.
    + pose proof (pop_fresh Hs Ep Ev) as Hr.
      assert (dget (dist (set_dist (set_fringe st rest) v d)) v = Some d) as Ed
        by (simpl; now rewrite dget_dset, node_eqb_refl).
      destruct (node_eqb v target) eqn:Et.
      * apply node_eqb_eq in Et. subst v. intros [= <-].
        split; [apply Hr|]. intros En. congruence.
      * destruct (relax_all v d (succ v) _) as [st3|e] eqn:Er; [|discriminate].
        apply IH. eapply relax_all_relaxing in Er; eauto.
        eapply relaxing_settled; [|exact Er].
        intros uc Huc. apply in_or_app. left. now apply in_rev in Huc.
  - intros [= <-]. split; [apply Hs|]. intros _. split; [exact Hs|].
    destruct (fringe st) as [|x l]; [reflexivity|].
    simpl in Ep. destruct (pop_min l) as [[m r']|]; [|discriminate].
    destruct (entry_ltb m x); discriminate.
Qed.

Lemma dijkstra_loop_no_raise (target : node) (fuel : nat) (st : dstate)
  (e : exn) :
  settled st ->
  dijkstra_loop fuel succ target st <> Done (Raise e).
Proof.
  revert st. induction fuel as [|fuel IH]; intros st Hs; simpl; [discriminate|].
  destruct (pop_min (fringe st)) as [[[[d c] v] rest]|] eqn:Ep; [|discriminate].
  simpl. destruct (dget (dist st) v) as [dv|] eqn:Ev.
  - apply IH. eapply pop_stale; eassumption.
  - pose proof (pop_fresh Hs Ep Ev) as Hr.
    assert (dget (dist (set_dist (set_fringe st rest) v d)) v = Some d) as Ed
      by (simpl; now rewrite dget_dset, node_eqb_refl).
    destruct (node_eqb v target); [discriminate|].
    edestruct relax_all_succeeds as [st3 Er];
      [intros uc Huc; exact Huc | exact Hr | exact Ed |].
    rewrite Er. apply IH.
    eapply relax_all_relaxing in Er; eauto.
    eapply relaxing_settled; [|exact Er].
    intros uc Huc. apply in_or_app. left. now apply in_rev in Huc.
Qed.

Lemma settled_init : settled (dijkstra_init s).
Proof.
  split.
  - constructor; simpl.
    + intros u x. destruct (node_eqb s u) eqn:E; [|discriminate].
      apply node_eqb_eq in E. subst u. intros [= <-].
      eexists. split; [reflexivity | constructor].
    + discriminate.
    + intros d c u [[= <- <- <-]|[]]. rewrite node_eqb_refl.
      eexists. split; [reflexivity | apply Qcle_refl].
    + intros u x. destruct (node_eqb s u) eqn:E; [|discriminate].
      apply node_eqb_eq in E. subst u. intros [= <-] _. exists 0. now left.
    + discriminate.
    + now rewrite node_eqb_refl.
  - intros v dv. discriminate.
Qed.

(** The outcome of the loop started at [s]: when it ends with the target
    final, the recorded path to the target is a cheapest walk. *)
Lemma dijkstra_loop_cheapest (target : node) (fuel : nat) (st : dstate)
  (p : list node) (d : num) :
  dijkstra_loop fuel succ target (dijkstra_init s) = Done (Ok st) ->
  dget (paths st) target = Some p ->
  dget (dist st) target = Some d ->
  wpath succ s p target d
  /\ forall q x, wpath succ s q target x -> (d <= x)%Qc.
Proof.
  intros El Ep Ed. apply dijkstra_loop_finished in El; [|apply settled_init].
  destruct El as [Hc _]. split.
  - destruct (core_paths Hc target (core_dist Hc target Ed)) as [p' [Ep' Hp]].
    congruence.
  - apply (core_optimal Hc Ed).
Qed.

(** When a walk to the target exists, the loop ends with the target final
    and a path recorded for it. *)
Lemma dijkstra_loop_reaches (target : node) (fuel : nat) (st : dstate)
  (q : list node) (x : num) :
  dijkstra_loop fuel succ target (dijkstra_init s) = Done (Ok st) ->
  wpath succ s q target x ->
  exists p d, dget (paths st) target = Some p /\ dget (dist st) target = Some d.
Proof.
  intros El Hw. apply dijkstra_loop_finished in El; [|apply settled_init].
  destruct El as [Hc Hend].
  destruct (dget (dist st) target) as [d|] eqn:Ed.
  - destruct (core_paths Hc target (core_dist Hc target Ed)) as [p [Ep _]].
    now exists p, d.
  - exfalso. destruct (Hend eq_refl) as [Hs Hf].
    destruct (frontier Hs Hw) as [[d [Ed' _]]|[y [z [Ey [Ez _]]]]].
    + congruence.
    + destruct (core_pending Hc y Ez Ey) as [c' Hc']. rewrite Hf in Hc'.
      contradiction.
Qed.

End CheapestPath.

(** ** Cheapest routes *)

Lemma min_from_cases (x : num) (l : list num) :
  min_from x l = x \/ In (min_from x l) l.
Proof.
  revert x. induction l as [|y l IH]; intros x; simpl; [now left|].
  destruct (IH (if num_ltb y x then y else x)) as [E|E].
  - destruct (num_ltb y x); rewrite E; auto.
  - auto.
Qed.

Section Cheapest.

Context {Sh : Shapely}.

Lemma group_add_keys_complete (u0 u : node) (d : edge_data)
  (acc : list (node * list edge_data)) :
  u = u0 \/ In u (map fst acc) -> In u (map fst (group_add u0 d acc)).
Proof.
  induction acc as [|[w ds] acc IH]; simpl.
  - intros [->|[]]. now left.
  - destruct (node_eqb w u0) eqn:E; simpl.
    + apply node_eqb_eq in E. subst w. intros [->|[<-|H]]; auto.
    + intros [->|[<-|H]]; auto.
Qed.

(** No edge has a negative weight (an edge without the attribute weighs
    1). *)
Definition nonnegative (G : graph) (weight : weight_key) : Prop :=
  forall e, In e (edges G) -> (Zq 0 <= get (weight (edata e)) (Zq 1))%Qc.

Lemma adj_keys_complete (G : graph) (v u : node) :
  In u (map fst (incident G v)) -> In u (map fst (adj G v)).
Proof.
  unfold adj.
  enough (forall l acc,
    In u (map fst l) \/ In u (map fst acc) ->
    In u (map fst (fold_left (fun acc p => group_add (fst p) (snd p) acc) l acc)))
    as E by (intros H; apply E; now left).
  induction l as [|p l IH]; intros acc; simpl.
  - intros [[]|H]. exact H.
  - intros [[<-|H]|H]; apply IH; auto; right;
      apply group_add_keys_complete; auto.
Qed.

Lemma step_weighted_adj (G : graph) (w : weight_key) (v u : node) :
  step G v u -> exists c, In (u, c) (weighted_adj G w v).
Proof.
  intros [e [He Hc]].
  assert (In u (map fst (incident G v))) as Hin.
  { unfold incident. apply in_map_iff.
    unfold connects in Hc. apply orb_true_iff in Hc.
    destruct (node_eqb (eu e) v) eqn:Eu.
    - exists (ev e, edata e). split.
      + simpl. destruct Hc as [Hc|Hc]; apply andb_true_iff in Hc.
        * destruct Hc as [_ Hc]. now apply node_eqb_eq in Hc.
        * destruct Hc as [Hc Hc']. apply andb_true_iff in Hc.
          destruct Hc as [_ Hc]. apply node_eqb_eq in Hc, Hc', Eu. congruence.
      + apply in_flat_map. exists e. split; [exact He|]. rewrite Eu. now left.
    - destruct Hc as [Hc|Hc]; apply andb_true_iff in Hc.
      + destruct Hc as [Hc _]. congruence.
      + destruct Hc as [Hc Hc']. apply andb_true_iff in Hc.
        destruct Hc as [Hd Hc]. exists (eu e, edata e). split.
        * simpl. now apply node_eqb_eq in Hc.
        * apply in_flat_map. exists e. split; [exact He|].
          rewrite Eu, Hd, Hc'. now left. }
  apply adj_keys_complete, in_map_iff in Hin.
  destruct Hin as [[u' ds] [<- Hin]].
  exists (edge_cost w ds). unfold weighted_adj. apply in_map_iff.
  exists (u', ds). auto.
Qed.

Lemma reachable_wpath (G : graph) (w : weight_key) (s t : node) :
  reachable G s t -> exists q x, wpath (weighted_adj G w) s q t x.
Proof.
  induction 1 as [|v u Hr [q [x Hq]] Hs].
  - eexists. eexists. constructor.
  - destruct (step_weighted_adj w Hs) as [c Hc].
    eexists. eexists. eapply wpath_snoc; eassumption.
Qed.

Lemma wpath_walk (G : graph) (w : weight_key) (s t : node) (q : list node)
  (x : num) :
  wpath (weighted_adj G w) s q t x -> is_walk G s q t.
Proof.
  induction 1; econstructor; eauto using weighted_adj_step.
Qed.

Lemma edge_cost_nonneg (G : graph) (w : weight_key) (ds : list edge_data) :
  nonnegative G w -> from_edges G ds -> (Zq 0 <= edge_cost w ds)%Qc.
Proof.
  intros Hn [Hne Hds]. unfold edge_cost.
  destruct ds as [|d ds]; [congruence|]. simpl.
  assert (forall d', In d' (d :: ds) -> (Zq 0 <= get (w d') (Zq 1))%Qc) as Hc.
  { intros d' Hin. destruct (Hds d' Hin) as [e [He <-]]. now apply Hn. }
  destruct (min_from_cases (get (w d) (Zq 1))
              (map (fun attr => get (w attr) (Zq 1)) ds)) as [E|E].
  - rewrite E. apply Hc. now left.
  - apply in_map_iff in E. destruct E as [d' [E Hin]]. rewrite <- E.
    apply Hc. now right.
Qed.

Lemma weighted_adj_nonneg (G : graph) (w : weight_key) :
  nonnegative G w ->
  forall v u c, In (u, c) (weighted_adj G w v) -> (Zq 0 <= c)%Qc.
Proof.
  intros Hn v u c Hin. unfold weighted_adj in Hin. apply in_map_iff in Hin.
  destruct Hin as [[u' ds] [[= <- <-] Hin]].
  apply edge_cost_nonneg with (G := G); [exact Hn|].
  pose proof (adj_from_edges G v) as Hall. rewrite Forall_forall in Hall.
  apply (Hall _ Hin).
Qed.

(** A path returned by the search is a cheapest walk. *)
Lemma shortest_path_cheapest (G : graph) (w : weight_key) (s t : node)
  (p : list node) :
  nonnegative G w ->
  shortest_path G s t w = Done (Ok p) ->
  exists d,
    wpath (weighted_adj G w) s p t d
    /\ forall q x, wpath (weighted_adj G w) s q t x -> (d <= x)%Qc.
Proof.
  intros Hn. pose proof (weighted_adj_nonneg Hn) as Hnn.
  unfold shortest_path.
  destruct (negb (has_node G s)); [discriminate|].
  destruct (node_eqb t s) eqn:E.
  - apply node_eqb_eq in E. subst t. intros [= <-].
    exists (Zq 0). split; [constructor|].
    intros q x Hq. eapply wpath_nonneg; eassumption.
  - destruct (dijkstra_loop _ _ _ _) as [[st|e]|] eqn:El; try discriminate.
    destruct (dget (paths st) t) as [p'|] eqn:Ep; [|discriminate].
    destruct (dget (dist st) t) as [d|] eqn:Ed; [|discriminate].
    intros [= <-]. exists d.
    eapply dijkstra_loop_cheapest; eassumption.
Qed.

(** The search finds a path whenever there is a walk. *)
Lemma shortest_path_finds (G : graph) (w : weight_key) (s t : node) :
  nonnegative G w ->
  has_node G s = true ->
  reachable G s t ->
  exists p, shortest_path G s t w = Done (Ok p).
Proof.
  intros Hn Hs Hr. pose proof (weighted_adj_nonneg Hn) as Hnn.
  destruct (reachable_wpath w Hr) as [q [x Hq]].
  unfold shortest_path. rewrite Hs. simpl.
  destruct (node_eqb t s); [eexists; reflexivity|].
  destruct (@dijkstra_loop_fuel _ G w t (search_fuel G) (dijkstra_init s))
    as [r Hl].
  { unfold search_fuel. simpl.
    pose proof (pending_bound (edges G) []). lia. }
  rewrite Hl. destruct r as [st|e].
  - edestruct dijkstra_loop_reaches as [p [d [Ep Ed]]];
      [exact Hnn | exact Hl | exact Hq |].
    rewrite Ep, Ed. eexists. reflexivity.
  - exfalso. revert Hl. apply dijkstra_loop_no_raise with (s := s); auto.
    apply settled_init.
Qed.

End Cheapest.

Lemma Qc_mul_nonneg (a b : num) :
  (Zq 0 <= a)%Qc -> (Zq 0 <= b)%Qc -> (Zq 0 <= a * b)%Qc.
Proof.
  intros Ha Hb. replace (Zq 0) with (Zq 0 * b)%Qc by apply Qcmult_0_l.
  now apply Qcmult_le_compat_r.
Qed.

Lemma walk_ends (Sh : Shapely) (G : graph) (s t : node) (p : list node) :
  is_walk G s p t -> hd_error p = Some s /\ last p s = t.
Proof.
  induction 1 as [|p v u Hw [IHh IHl] Hs].
  - split; reflexivity.
  - split.
    + destruct p; [discriminate | exact IHh].
    + apply last_last.
Qed.

Lemma last_map_cons (A B : Type) (f : A -> B) (x : A) (l : list A)
  (d : A) (d' : B) :
  last (map f (x :: l)) d' = f (last (x :: l) d).
Proof.
  revert x. induction l as [|y l IH]; intros x; [reflexivity|].
  change (last (map f (y :: l)) d' = f (last (y :: l) d)). apply IH.
Qed.

Section CheapestRoutes.

Context {Sh : Shapely} {O : OSMnx}.

(** The lengths that are present are not negative. *)
Definition lengths_nonnegative (G : graph) : Prop :=
  forall e len, In e (edges G) -> d_length (edata e) = Some len ->
                (Zq 0 <= len)%Qc.

(** The hazard penalties that are present are not negative. *)
Definition penalties_nonnegative (G : graph) : Prop :=
  forall e hp, In e (edges G) -> d_hazard_penalty (edata e) = Some hp ->
               (Zq 0 <= hp)%Qc.

Lemma travel_time_nonneg (d : edge_data) :
  (forall len, d_length d = Some len -> (Zq 0 <= len)%Qc) ->
  (Zq 0 <= travel_time d)%Qc.
Proof.
  intros Hl. destruct (d_length d) as [len|] eqn:El.
  - rewrite travel_time_scale with (len := len) by exact El. unfold scale.
    apply Qc_mul_nonneg; [now apply Hl|].
    apply Qclt_le_weak, time_factor_pos.
  - unfold travel_time. rewrite El. simpl. now vm_compute.
Qed.

Lemma safe_cost_nonneg (d : edge_data) :
  (forall len, d_length d = Some len -> (Zq 0 <= len)%Qc) ->
  (forall hp, d_hazard_penalty d = Some hp -> (Zq 0 <= hp)%Qc) ->
  (Zq 0 <= safe_cost d)%Qc.
Proof.
  intros Hl Hp. unfold safe_cost. apply Qc_mul_nonneg.
  - destruct (d_length d) as [len|]; simpl; [now apply Hl | now vm_compute].
  - apply Qc_plus_nonneg; [now vm_compute|].
    destruct (d_hazard_penalty d) as [hp|]; simpl;
      [now apply Hp | apply Qcle_refl].
Qed.

Lemma lengths_nonnegative_weights (G : graph) :
  lengths_nonnegative G -> nonnegative G d_length.
Proof.
  intros Hl e He. destruct (d_length (edata e)) as [len|] eqn:El; simpl.
  - eapply Hl; eassumption.
  - now vm_compute.
Qed.

Lemma times_nonnegative (G : graph) :
  lengths_nonnegative G ->
  nonnegative (relabel (fun data => set_time data (travel_time data)) G) d_time.
Proof.
  intros Hl e He. simpl in He. apply in_map_iff in He.
  destruct He as [e0 [<- He0]]. simpl.
  apply travel_time_nonneg. intros len. now apply Hl.
Qed.

Lemma safe_weights_nonnegative (G : graph) :
  lengths_nonnegative G -> penalties_nonnegative G ->
  nonnegative (relabel (fun data => set_safe_weight data (safe_cost data)) G)
    d_safe_weight.
Proof.
  intros Hl Hp e He. simpl in He. apply in_map_iff in He.
  destruct He as [e0 [<- He0]]. simpl.
  apply safe_cost_nonneg; intros x; [now apply Hl | now apply Hp].
Qed.

(** A route is the materialisation of a cheapest walk between the
    resolved nodes. *)
Definition cheapest_route (G : graph) (weight : weight_key)
  (origin target : Coord) (coords : list Coord) : Prop :=
  exists on tn p d,
    resolve G origin = Ok on /\ resolve G target = Ok tn
    /\ coords = _nodes_to_coords G p origin target
    /\ wpath (weighted_adj G weight) on p tn d
    /\ forall q x, wpath (weighted_adj G weight) on q tn x -> (d <= x)%Qc.

Lemma route_cheapest (g : graph) (w : weight_key) (origin target : Coord)
  (coords : list Coord) :
  nonnegative g w ->
  route g origin target w = Done (Ok coords) ->
  cheapest_route g w origin target coords.
Proof.
  intros Hn. unfold route.
  destruct (resolve g origin) as [on|] eqn:Eo; [|discriminate].
  destruct (resolve g target) as [tn|] eqn:Et; [|discriminate].
  destruct (shortest_path g on tn w) as [[p|e]|] eqn:E; try discriminate.
  intros [= <-].
  edestruct shortest_path_cheapest as [d [Hp Hopt]]; [exact Hn | exact E |].
  exists on, tn, p, d. auto.
Qed.

Lemma route_finds (g : graph) (w : weight_key) (origin target : Coord)
  (on tn : node) :
  nonnegative g w ->
  resolve g origin = Ok on -> resolve g target = Ok tn ->
  has_node g on = true -> reachable g on tn ->
  exists coords, route g origin target w = Done (Ok coords).
Proof.
  intros Hn Eo Et Hs Hr. unfold route. rewrite Eo, Et.
  edestruct shortest_path_finds as [p Ep]; [exact Hn | exact Hs | exact Hr |].
  rewrite Ep. eexists. reflexivity.
Qed.

Lemma guarded_some (g g' : graph) (r : run (result (list Coord)))
  (coords : list Coord) :
  guarded g r = Done (Some g', Some coords) ->
  g' = g /\ r = Done (Ok coords).
Proof.
  destruct r as [[c|e]|]; simpl; intros [=]; subst; auto.
Qed.

(** With lengths that are not negative, a route returned by the shortest
    search follows a walk of the smallest total length between the
    resolved nodes, the length of a hop being the smallest [length] among
    the parallel edges (1 for an edge without one). *)
Theorem shortest_route_cheapest (g : graph) (origin target : Coord)
  (coords : list Coord) :
  lengths_nonnegative g ->
  compute_shortest_path (Some g) origin target d_length
  = Done (Some g, Some coords) ->
  cheapest_route g d_length origin target coords.
Proof.
  intros Hl E. unfold compute_shortest_path in E.
  apply guarded_some in E. destruct E as [_ E].
  eapply route_cheapest; [now apply lengths_nonnegative_weights | exact E].
Qed.

(** With lengths that are not negative, a route returned by the fastest
    search follows a walk of the smallest total travel time in the graph
    as the search leaves it. *)
Theorem fastest_route_cheapest (g g' : graph) (origin target : Coord)
  (coords : list Coord) :
  lengths_nonnegative g ->
  compute_fastest_path (Some g) origin target = Done (Some g', Some coords) ->
  cheapest_route g' d_time origin target coords.
Proof.
  intros Hl. unfold compute_fastest_path, annotate_time.
  destruct (is_multigraph g) eqn:Hm.
  - rewrite annotate_multigraph by exact Hm. intros E.
    apply guarded_some in E. destruct E as [-> E].
    eapply route_cheapest; [now apply times_nonnegative | exact E].
  - rewrite annotate_simple by exact Hm. discriminate.
Qed.

(** With lengths and hazard penalties that are not negative, a route
    returned by the safest search follows a walk of the smallest total
    [safe_weight] in the graph as the search leaves it. *)
Theorem safest_route_cheapest (g g' : graph) (origin target : Coord)
  (coords : list Coord) :
  lengths_nonnegative g -> penalties_nonnegative g ->
  compute_safest_path (Some g) origin target = Done (Some g', Some coords) ->
  cheapest_route g' d_safe_weight origin target coords.
Proof.
  intros Hl Hp. unfold compute_safest_path, annotate_safe_weight.
  destruct (is_multigraph g) eqn:Hm.
  - rewrite annotate_multigraph by exact Hm. intros E.
    apply guarded_some in E. destruct E as [-> E].
    eapply route_cheapest; [now apply safe_weights_nonnegative | exact E].
  - rewrite annotate_simple by exact Hm. discriminate.
Qed.

(** With lengths that are not negative, when both ends resolve, the
    origin node is in the graph and the target node can be reached from
    it, the shortest search returns a route; on a multigraph so does the
    fastest search, and the safest search when the hazard penalties are
    not negative either. *)
Theorem routes_found (g : graph) (origin target : Coord) (on tn : node) :
  lengths_nonnegative g ->
  resolve g origin = Ok on -> resolve g target = Ok tn ->
  has_node g on = true -> reachable g on tn ->
  (exists coords,
     compute_shortest_path (Some g) origin target d_length
     = Done (Some g, Some coords))
  /\ (is_multigraph g = true ->
      exists g' coords,
        compute_fastest_path (Some g) origin target
        = Done (Some g', Some coords))
  /\ (is_multigraph g = true -> penalties_nonnegative g ->
      exists g' coords,
        compute_safest_path (Some g) origin target
        = Done (Some g', Some coords)).
Proof.
  intros Hl Eo Et Hs Hr.
  assert (forall f, reachable (relabel f g) on tn) as Hrel.
  { intros f. clear - Hr. induction Hr as [|v u Hr IH [e [He Hc]]].
    - constructor.
    - econstructor; [exact IH|].
      exists (set_edata e (f (edata e))). split; [|exact Hc].
      simpl. apply in_map_iff. now exists e. }
  split; [|split].
  - unfold compute_shortest_path.
    edestruct route_finds as [coords E];
      [apply (lengths_nonnegative_weights Hl) | exact Eo | exact Et | exact Hs
       | exact Hr |].
    rewrite E. eexists. reflexivity.
  - intros Hm. unfold compute_fastest_path, annotate_time.
    rewrite annotate_multigraph by exact Hm.
    edestruct route_finds as [coords E];
      [apply (times_nonnegative Hl) | exact Eo | exact Et | exact Hs
       | apply Hrel |].
    rewrite E. eexists. eexists. reflexivity.
  - intros Hm Hp. unfold compute_safest_path, annotate_safe_weight.
    rewrite annotate_multigraph by exact Hm.
    edestruct route_finds as [coords E];
      [apply (safe_weights_nonnegative Hl Hp) | exact Eo | exact Et | exact Hs
       | apply Hrel |].
    rewrite E. eexists. eexists. reflexivity.
Qed.

(** A route returned by a search starts at the coordinate of the resolved
    origin node and ends at the coordinate of the resolved target node. *)
Theorem route_ends (g : graph) (origin target : Coord) (w : weight_key)
  (coords : list Coord) :
  compute_shortest_path (Some g) origin target w = Done (Some g, Some coords) ->
  exists on tn,
    resolve g origin = Ok on /\ resolve g target = Ok tn
    /\ hd_error coords = Some (coord_of_node g origin on)
    /\ last coords origin = coord_of_node g origin tn.
Proof.
  intros E. unfold compute_shortest_path in E.
  apply guarded_some in E. destruct E as [_ E].
  apply route_walk in E. destruct E as (on & tn & p & Eo & Et & Hw & ->).
  exists on, tn. split; [exact Eo|]. split; [exact Et|].
  apply walk_ends in Hw. destruct Hw as [Hh Hl].
  destruct p as [|x p]; [discriminate|].
  rewrite nodes_to_coords_nonempty. injection Hh as ->. split.
  - reflexivity.
  - rewrite <- Hl. apply last_map_cons.
Qed.

End CheapestRoutes.

(** ** More on the hazard filter *)

Section HazardFilterMore.

Context {Sh : Shapely}.

Lemma block_step_miss (g : graph) (polys : list Polygon) (blocked : Z)
  (e : edge) :
  in_hazard g polys e = false ->
  block_step polys (g, blocked) e = (g, blocked).
Proof.
  unfold in_hazard, representative_point, block_step. simpl.
  destruct (edge_midpoint g (eu e) (ev e) (edata e)) as [m|x]; simpl;
    [|reflexivity].
  rewrite test_polygons_first_match. now intros ->.
Qed.

Lemma block_edges_all_miss (g : graph) (polys : list Polygon) :
  (forall e, In e (edges g) -> in_hazard g polys e = false) ->
  block_edges_by_hazards (Some g) (Some polys) = (Some g, 0%Z).
Proof.
  intros Hm. unfold block_edges_by_hazards.
  enough (forall es, (forall e, In e es -> in_hazard g polys e = false) ->
            fold_left (block_step polys) es (g, 0%Z) = (g, 0%Z)) as E
    by now rewrite E.
  induction es as [|e es IH]; intros Hes; simpl; [reflexivity|].
  rewrite block_step_miss by (apply Hes; now left).
  apply IH. intros e' He'. apply Hes. now right.
Qed.

(** When no edge has its representative point in a polygon, the filter
    returns 0 and leaves the graph as it is, parallel edges or not. *)
Theorem block_edges_nothing_to_block (g : graph) (polys : list Polygon) :
  (forall e, In e (edges g) -> in_hazard g polys e = false) ->
  block_edges_by_hazards (Some g) (Some polys) = (Some g, 0%Z).
Proof. apply block_edges_all_miss. Qed.

(** Without polygons nothing is removed: an empty list and [None] both
    give 0 and the graph unchanged. *)
Theorem block_edges_no_polygons (g : graph) :
  block_edges_by_hazards (Some g) (Some []) = (Some g, 0%Z)
  /\ block_edges_by_hazards (Some g) None = (Some g, 0%Z).
Proof.
  split; [|reflexivity].
  apply block_edges_all_miss. intros e _.
  unfold in_hazard. now destruct (representative_point g e).
Qed.

Lemma lookup_node_in (l : list (node * node_attr)) (n : node) (a : node_attr) :
  lookup_node l n = Ok a -> exists m, In (m, a) l.
Proof.
  induction l as [|[m b] l IH]; simpl; [discriminate|].
  destruct (node_eqb m n).
  - intros [= <-]. exists m. now left.
  - intros H. destruct (IH H) as [m' Hm']. exists m'. now right.
Qed.

Lemma lookup_node_raise (l : list (node * node_attr)) (n : node) (e : exn) :
  lookup_node l n = Raise e -> e = KeyError.
Proof.
  induction l as [|[m b] l IH]; simpl; [now intros [= <-]|].
  destruct (node_eqb m n); [discriminate | exact IH].
Qed.

(** An edge without geometry between nodes without an [x] attribute has
    no representative point. *)
Lemma edge_midpoint_no_coordinates (g : graph) (u v : node) (data : edge_data) :
  (forall n a, In (n, a) (nodes g) -> attr_x a = None) ->
  d_geometry data = None ->
  edge_midpoint g u v data = Raise KeyError.
Proof.
  intros Hx Hg. unfold edge_midpoint, nodes_getitem. rewrite Hg.
  destruct (lookup_node (nodes g) u) as [a|e] eqn:E; simpl.
  - destruct (lookup_node_in _ _ E) as [m Hm].
    now rewrite (Hx m a Hm).
  - now rewrite (lookup_node_raise _ _ E).
Qed.

(** The filter has no effect on a graph whose nodes have no [x]
    attribute and whose edges have no geometry: no edge can be tested. *)
Lemma block_edges_without_coordinates (g : graph) (polys : list Polygon) :
  (forall n a, In (n, a) (nodes g) -> attr_x a = None) ->
  (forall e, In e (edges g) -> d_geometry (edata e) = None) ->
  block_edges_by_hazards (Some g) (Some polys) = (Some g, 0%Z).
Proof.
  intros Hx Hg. apply block_edges_all_miss. intros e He.
  unfold in_hazard, representative_point.
  now rewrite edge_midpoint_no_coordinates by auto.
Qed.

(** The fallback grid, of any size, is never changed by the filter: its
    nodes have no coordinate attributes and its edges no geometry, so no
    edge can be tested. *)
Theorem block_edges_grid (size : nat) (polys : list Polygon) :
  block_edges_by_hazards (Some (build_grid_graph size)) (Some polys)
  = (Some (build_grid_graph size), 0%Z).
Proof.
  apply block_edges_without_coordinates.
  - intros n a. simpl. rewrite in_flat_map. intros [i [_ Hin]].
    apply in_map_iff in Hin. destruct Hin as [j [[= _ <-] _]]. reflexivity.
  - intros e. simpl. rewrite in_map_iff. intros [e0 [<- He0]]. simpl.
    apply in_flat_map in He0. destruct He0 as [i [_ He0]].
    apply in_flat_map in He0. destruct He0 as [j [_ He0]].
    apply in_app_or in He0.
    destruct He0 as [He0|He0];
      [destruct (S i <? size) | destruct (S j <? size)];
      simpl in He0; try contradiction;
      destruct He0 as [<-|[]]; reflexivity.
Qed.

End HazardFilterMore.

(** ** What the searches write, and how they combine *)

Section SearchEffects.

Context {Sh : Shapely} {O : OSMnx}.

(** [e'] is the edge [e] with nothing changed but its ["safe_weight"]. *)
Definition same_but_safe_weight (e e' : edge) : Prop :=
  eu e' = eu e /\ ev e' = ev e /\ ekey e' = ekey e
  /\ d_length (edata e') = d_length (edata e)
  /\ d_speed_kph (edata e') = d_speed_kph (edata e)
  /\ d_hazard_penalty (edata e') = d_hazard_penalty (edata e)
  /\ d_geometry (edata e') = d_geometry (edata e)
  /\ d_time (edata e') = d_time (edata e).

(** On a multigraph the safest search writes, for every edge,
    [length * (1 + hazard_penalty)] under ["safe_weight"], with 100 for a
    missing length and 0 for a missing penalty, so that an edge without a
    penalty weighs its length; nothing else changes. *)
Theorem safest_weight_written (g : graph) (origin target : Coord) :
  is_multigraph g = true ->
  exists g' r,
    compute_safest_path (Some g) origin target = Done (Some g', r)
    /\ nodes g' = nodes g
    /\ Forall2 (fun e e' =>
         same_but_safe_weight e e'
         /\ d_safe_weight (edata e')
            = Some (get (d_length (edata e)) (Zq 100)
                    * (Zq 1 + get (d_hazard_penalty (edata e)) (Zq 0)))%Qc
         /\ (get (d_hazard_penalty (edata e)) (Zq 0) = Zq 0 ->
             d_safe_weight (edata e')
             = Some (get (d_length (edata e)) (Zq 100))))
       (edges g) (edges g').
Proof.
  intros Hm. unfold compute_safest_path, annotate_safe_weight.
  rewrite annotate_multigraph by exact Hm.
  set (g' := relabel _ g).
  destruct (route_returns g' origin target d_safe_weight) as [r Hr]. rewrite Hr.
  assert (Forall2 (fun e e' =>
            same_but_safe_weight e e'
            /\ d_safe_weight (edata e')
               = Some (get (d_length (edata e)) (Zq 100)
                       * (Zq 1 + get (d_hazard_penalty (edata e)) (Zq 0)))%Qc
            /\ (get (d_hazard_penalty (edata e)) (Zq 0) = Zq 0 ->
                d_safe_weight (edata e')
                = Some (get (d_length (edata e)) (Zq 100))))
          (edges g) (edges g')) as Hall.
  { apply Forall2_map_r. intros e. split; [repeat split|]. split.
    - reflexivity.
    - intros Hp. simpl. unfold safe_cost. rewrite Hp. f_equal.
      change (@eq Qc (get (d_length (edata e)) (Zq 100) * (1 + 0))%Qc
                     (get (d_length (edata e)) (Zq 100))). ring. }
  exists g'. destruct r as [coords|e]; eexists; repeat split; exact Hall.
Qed.

(** On a graph that is not a multigraph, such as the fallback grid, the
    fastest and the safest search return [None] and leave the graph as it
    is: [G.edges(keys=True, ...)] is refused before anything is written. *)
Theorem weighted_searches_need_multigraph (g : graph) (origin target : Coord) :
  is_multigraph g = false ->
  compute_fastest_path (Some g) origin target = Done (Some g, None)
  /\ compute_safest_path (Some g) origin target = Done (Some g, None).
Proof.
  intros Hm. unfold compute_fastest_path, compute_safest_path,
    annotate_time, annotate_safe_weight.
  now rewrite !annotate_simple by exact Hm.
Qed.

Lemma guarded_result (g : graph) (r : run (result (list Coord))) :
  run_map snd (guarded g r)
  = run_map (fun x => match x with Ok c => Some c | Raise _ => None end) r.
Proof. destruct r as [[c|e]|]; reflexivity. Qed.

Lemma guarded_graph (g g' : graph) (r : run (result (list Coord)))
  (x : option (list Coord)) :
  guarded g r = Done (Some g', x) ->
  g' = g /\ run_map snd (guarded g r) = Done x.
Proof.
  intros E. rewrite E. destruct r as [[c|e]|]; simpl in E; try discriminate;
    injection E as <- <-; auto.
Qed.

(** The searches do not disturb one another.  After a fastest or a safest
    search the shortest search returns what it returns on the untouched
    graph, the safest search after a fastest one returns what it returns
    alone, and the fastest search after a safest one likewise. *)
Theorem searches_independent (g gf gs : graph) (origin target : Coord)
  (rf rs : option (list Coord)) :
  compute_fastest_path (Some g) origin target = Done (Some gf, rf) ->
  compute_safest_path (Some g) origin target = Done (Some gs, rs) ->
  run_map snd (compute_shortest_path (Some gf) origin target d_length)
  = run_map snd (compute_shortest_path (Some g) origin target d_length)
  /\ run_map snd (compute_shortest_path (Some gs) origin target d_length)
     = run_map snd (compute_shortest_path (Some g) origin target d_length)
  /\ run_map snd (compute_safest_path (Some gf) origin target) = Done rs
  /\ run_map snd (compute_fastest_path (Some gs) origin target) = Done rf.
Proof.
  unfold compute_fastest_path, compute_safest_path, compute_shortest_path,
    annotate_time, annotate_safe_weight.
  destruct (is_multigraph g) eqn:Hm.
  - rewrite !annotate_multigraph by exact Hm.
    set (ft := fun data : edge_data => set_time data (travel_time data)).
    set (fs := fun data : edge_data => set_safe_weight data (safe_cost data)).
    intros Ef Es. apply guarded_graph in Ef, Es.
    destruct Ef as [-> Ef], Es as [-> Es].
    rewrite !annotate_multigraph by exact Hm.
    rewrite !guarded_result in *.
    rewrite (route_reweigh ft g origin target d_length d_length)
      by reflexivity.
    rewrite (route_reweigh fs g origin target d_length d_length)
      by reflexivity.
    repeat split.
    + rewrite <- Es.
      rewrite (route_reweigh fs (relabel ft g) origin target
                 (fun d => Some (safe_cost d)) d_safe_weight) by reflexivity.
      rewrite (route_reweigh ft g origin target
                 (fun d => Some (safe_cost d)) (fun d => Some (safe_cost d)))
        by reflexivity.
      now rewrite (route_reweigh fs g origin target
                     (fun d => Some (safe_cost d)) d_safe_weight)
        by reflexivity.
    + rewrite <- Ef.
      rewrite (route_reweigh ft (relabel fs g) origin target
                 (fun d => Some (travel_time d)) d_time) by reflexivity.
      rewrite (route_reweigh fs g origin target
                 (fun d => Some (travel_time d)) (fun d => Some (travel_time d)))
        by reflexivity.
      now rewrite (route_reweigh ft g origin target
                     (fun d => Some (travel_time d)) d_time)
        by reflexivity.
  - rewrite !annotate_simple by exact Hm.
    intros [= <- <-] [= <- <-].
    rewrite !annotate_simple by exact Hm. auto.
Qed.

(** When the cache file is used [load_graph] is [ox.load_graphml];
    otherwise it never raises: it returns the fetched graph when fetching
    and saving it both succeeded, and the 10x10 grid in every other case,
    also when only the saving failed. *)
Theorem load_graph_outcomes (online : bool) (center : Coord) (dist : num) :
  (negb online && path_exists = true ->
   load_graph online center dist = load_graphml)
  /\ (negb online && path_exists = false ->
      (exists G0, graph_from_point center dist = Ok G0
                  /\ save_graphml G0 = Ok tt
                  /\ load_graph online center dist = Ok G0)
      \/ ((forall G0, graph_from_point center dist = Ok G0 ->
             exists e, save_graphml G0 = Raise e)
          /\ load_graph online center dist = Ok (build_grid_graph 10))).
Proof.
  unfold load_graph. split; intros ->; [reflexivity|].
  destruct (graph_from_point center dist) as [G0|e] eqn:Ef; simpl.
  - destruct (save_graphml G0) as [[]|e] eqn:Es; simpl.
    + left. exists G0. auto.
    + right. split; [|reflexivity]. intros G1 [= <-]. now exists e.
  - right. split; [|reflexivity]. discriminate.
Qed.

End SearchEffects.

(** ** The grid of any size *)

Lemma list_sum_const_step (f : nat -> nat) (c m : nat) :
  (forall j, j < m -> f j = c) ->
  list_sum (map f (seq 0 m)) = m * c.
Proof.
  induction m as [|m IH]; intros Hf; [reflexivity|].
  rewrite seq_S, map_app, list_sum_app, IH by (intros j Hj; apply Hf; lia).
  cbn [map list_sum fold_right Nat.add]. rewrite Hf by lia. rewrite Nat.mul_succ_l. lia.
Qed.

(** The number of [j < m] with [S j < n]. *)
Lemma count_inner (n m : nat) :
  m <= n ->
  list_sum (map (fun j => if S j <? n then 1 else 0) (seq 0 m))
  = Nat.min m (n - 1).
Proof.
  induction m as [|m IH]; intros Hm; [reflexivity|].
  rewrite seq_S, map_app, list_sum_app, IH by lia. cbn [map list_sum fold_right Nat.add].
  destruct (S m <? n) eqn:E.
  - apply Nat.ltb_lt in E. lia.
  - apply Nat.ltb_ge in E. lia.
Qed.

Section GridShape.

Context {Sh : Shapely}.

Lemma grid_row_edges (size i : nat) :
  length
    (flat_map (fun j =>
       (if S i <? size then [grid_edge (grid_node i j) (grid_node (S i) j)]
        else [])
       ++ (if S j <? size then [grid_edge (grid_node i j) (grid_node i (S j))]
           else []))
       (seq 0 size))
  = (if S i <? size then size else 0) + (size - 1).
Proof.
  rewrite length_flat_map.
  rewrite (map_ext _ (fun j => (if S i <? size then 1 else 0)
                               + (if S j <? size then 1 else 0))).
  2:{ intros j. rewrite length_app.
      destruct (S i <? size), (S j <? size); reflexivity. }
  assert (forall (a : nat) (f : nat -> nat) l,
            list_sum (map (fun j => a + f j) l)
            = length l * a + list_sum (map f l)) as Hsplit.
  { intros a f l. induction l as [|x l IH]; simpl; [reflexivity|].
    rewrite IH. lia. }
  rewrite Hsplit, length_seq, count_inner by lia.
  destruct (S i <? size); lia.
Qed.

(** [build_grid_graph(size)] is an undirected simple graph with
    [size * size] nodes (row, column), none of which has coordinate
    attributes, and [2 * size * (size - 1)] edges; every edge has length 1
    and joins a node to the next one in its column or in its row. *)
Theorem build_grid_graph_shape (size : nat) :
  let G := build_grid_graph size in
  is_multigraph G = false /\ is_directed G = false
  /\ length (nodes G) = size * size
  /\ length (edges G) = 2 * size * (size - 1)
  /\ (forall n a, In (n, a) (nodes G) <->
        a = no_attr /\ exists i j, i < size /\ j < size /\ n = grid_node i j)
  /\ (forall e, In e (edges G) ->
        d_length (edata e) = Some (Zq 1)
        /\ exists i j, i < size /\ j < size /\ eu e = grid_node i j
           /\ ((S i < size /\ ev e = grid_node (S i) j)
               \/ (S j < size /\ ev e = grid_node i (S j)))).
Proof.
  simpl. split; [reflexivity|]. split; [reflexivity|]. split; [|split; [|split]].
  - rewrite length_flat_map.
    rewrite (map_ext _ (fun _ => size))
      by (intros i; now rewrite length_map, length_seq).
    rewrite list_sum_const_step with (c := size) by reflexivity. reflexivity.
  - rewrite length_map, length_flat_map.
    rewrite (map_ext _ (fun i => (if S i <? size then size else 0) + (size - 1)))
      by (intros i; apply grid_row_edges).
    assert (forall m, m <= size ->
              list_sum (map (fun i => (if S i <? size then size else 0)
                                      + (size - 1)) (seq 0 m))
              = Nat.min m (size - 1) * size + m * (size - 1)) as Hsum.
    { induction m as [|m IH]; intros Hm; [reflexivity|].
      rewrite seq_S, map_app, list_sum_app, IH by lia.
      cbn [map list_sum fold_right Nat.add].
      destruct (S m <? size) eqn:E.
      - apply Nat.ltb_lt in E.
        rewrite (Nat.min_l m) by lia. rewrite (Nat.min_l (S m)) by lia. lia.
      - apply Nat.ltb_ge in E.
        rewrite (Nat.min_r (S m)) by lia.
        assert (m = size - 1) as -> by lia.
        rewrite Nat.min_id. lia. }
    rewrite Hsum by lia.
    destruct size as [|k]; [reflexivity|].
    rewrite Nat.min_r by lia. simpl. lia.
  - intros n a. rewrite in_flat_map. split.
    + intros [i [Hi Hin]]. apply in_map_iff in Hin.
      destruct Hin as [j [[= <- <-] Hj]]. apply in_seq in Hi, Hj.
      split; [reflexivity|]. exists i, j. repeat split; lia.
    + intros [-> [i [j [Hi [Hj ->]]]]]. exists i. split; [apply in_seq; lia|].
      apply in_map_iff. exists j. split; [reflexivity | apply in_seq; lia].
  - intros e. rewrite in_map_iff. intros [e0 [<- He0]]. simpl.
    split; [reflexivity|].
    apply in_flat_map in He0. destruct He0 as [i [Hi He0]].
    apply in_flat_map in He0. destruct He0 as [j [Hj He0]].
    apply in_seq in Hi, Hj. exists i, j.
    split; [lia|]. split; [lia|].
    apply in_app_or in He0. destruct He0 as [He0|He0].
    + destruct (S i <? size) eqn:E; simpl in He0; [|contradiction].
      destruct He0 as [<-|[]]. apply Nat.ltb_lt in E. simpl. auto.
    + destruct (S j <? size) eqn:E; simpl in He0; [|contradiction].
      destruct He0 as [<-|[]]. apply Nat.ltb_lt in E. simpl. auto.
Qed.

End GridShape.

(** * Runs on the sample data *)

#[local] Existing Instance plane.

(** C1 (the code on two parallel roads). The straight road is in the
    flood and the detour is not; the filter removes the detour and keeps
    the straight road. *)
Theorem block_drops_untested_parallel_edge :
  in_hazard two_roads [flood] straight_road = true
  /\ in_hazard two_roads [flood] detour_road = false
  /\ block_edges_by_hazards (Some two_roads) (Some [flood])
     = (Some (set_edges two_roads [straight_road]), 1%Z).
Proof. repeat split; reflexivity. Qed.

(** C5 (the code on two parallel roads). A second run with the same
    hazard removes one more edge, the straight road. *)
Theorem block_twice_removes_again :
  block_edges_by_hazards (Some two_roads) (Some [flood])
  = (Some (set_edges two_roads [straight_road]), 1%Z)
  /\ block_edges_by_hazards (Some (set_edges two_roads [straight_road]))
       (Some [flood])
     = (Some (set_edges two_roads []), 1%Z).
Proof. split; reflexivity. Qed.

(** C6 (the code with an unreadable cache file). Offline, with a cache
    file that cannot be read, [load_graph] raises. *)
Theorem load_graph_broken_cache :
  load_graph (O := broken_cache plane) false (latlon 0 0) (Zq 1500)
  = Raise IOError.
Proof. reflexivity. Qed.

(** C2 (counterexample). A road of length 100 without [speed_kph]: the
    fastest search writes 12, the time at the default speed 30, where the
    claim has 100 / 10. *)
Lemma fastest_default_speed :
  exists g' r t,
    compute_fastest_path (O := offline plane) (Some one_road)
      (latlon 0 0) (latlon 0 10) = Done (Some g', r)
    /\ map (fun e => d_time (edata e)) (edges g') = [Some t]
    /\ t = Zq 12
    /\ map (fun e => claimed_time (edata e)) (edges one_road) = [Zq 10]
    /\ Zq 12 <> Zq 10.
Proof.
  eexists. eexists. eexists.
  split; [reflexivity|].
  split; [reflexivity|].
  split; [apply Qc_is_canon; reflexivity|].
  split; [simpl; f_equal; apply Qc_is_canon; reflexivity|].
  intros E. apply (f_equal this) in E. vm_compute in E. discriminate.
Qed.

(** C4 (counterexample). Speed 30 and hazard penalty 0 on every road, a
    length on the direct road only: the shortest search goes through node
    2, the fastest and the safest search take the direct road. *)
Lemma unmeasured_routes_differ :
  compute_shortest_path (O := offline plane) (Some unmeasured)
    (latlon 0 0) (latlon 0 20) d_length
  = Done (Some unmeasured, Some [latlon 0 0; latlon 10 10; latlon 0 20])
  /\ (exists g', compute_fastest_path (O := offline plane) (Some unmeasured)
                   (latlon 0 0) (latlon 0 20)
                 = Done (Some g', Some [latlon 0 0; latlon 0 20]))
  /\ (exists g', compute_safest_path (O := offline plane) (Some unmeasured)
                   (latlon 0 0) (latlon 0 20)
                 = Done (Some g', Some [latlon 0 0; latlon 0 20])).
Proof.
  split; [reflexivity|].
  split; eexists; reflexivity.
Qed.

(** *** The fastest search and rounding

    Lengths and times are idealised as rationals in this development.  The
    program computes them in binary64, and for the fastest search this
    shows in the routes: line 78 writes [length / (speed * 1000 / 3600)]
    rounded, and the search adds these rounded values.  On three roads of
    lengths 1, 9 and 10 without a [speed_kph] the lengths of the two routes
    tie ([1 + 9 = 10]), while the time of the two roads together
    (1.1999999999999997) is below the time of the third (1.2): the totals
    of the times do not compare as the totals of the lengths.  This is why the equivalence above is stated
    for the safest search only. *)
Module Binary64.

Import PrimFloat.

(** The ["time"] of line 78 in binary64. *)
Definition rounded_time (length speed : float) : float :=
  (length / (speed * 1000 / 3600))%float.

Example rounded_times_reorder :
  (1 + 9 =? 10)%float = true
  /\ (rounded_time 1 30 + rounded_time 9 30 <? rounded_time 10 30)%float = true
  /\ (rounded_time 1 30 + rounded_time 9 30)%float = 0x1.3333333333332p+0%float
  /\ rounded_time 10 30 = 0x1.3333333333333p+0%float.
Proof. repeat split; vm_compute; reflexivity. Qed.

End Binary64.

(** C7 (counterexample). A single road of length -5: the shortest and the
    safest search return the route over it. *)
Lemma negative_length_route :
  map (fun e => d_length (edata e)) (edges negative_road) = [Some (Zq (-5))]
  /\ compute_shortest_path (O := offline plane) (Some negative_road)
       (latlon 0 0) (latlon 0 10) d_length
     = Done (Some negative_road, Some [latlon 0 0; latlon 0 10])
  /\ (exists g', compute_safest_path (O := offline plane) (Some negative_road)
                   (latlon 0 0) (latlon 0 10)
                 = Done (Some g', Some [latlon 0 0; latlon 0 10])).
Proof.
  split; [reflexivity|].
  split; [reflexivity|].
  eexists; reflexivity.
Qed.

(** The triangle of the specification: the direct road first, the way
    through B once the direct road is blocked. *)
Example triangle_scenario :
  compute_shortest_path (O := offline plane) (Some triangle)
    (latlon 0 0) (latlon 0 20) d_length
  = Done (Some triangle, Some [latlon 0 0; latlon 0 20])
  /\ block_edges_by_hazards (Some triangle) (Some [(pt 5 (-1), pt 15 1)])
     = (Some (set_edges triangle
                [road 1 2 0 (Some 10%Z) None; road 2 3 0 (Some 10%Z) None]),
        1%Z)
  /\ compute_shortest_path (O := offline plane)
       (Some (set_edges triangle
                [road 1 2 0 (Some 10%Z) None; road 2 3 0 (Some 10%Z) None]))
       (latlon 0 0) (latlon 0 20) d_length
     = Done (Some (set_edges triangle
                     [road 1 2 0 (Some 10%Z) None; road 2 3 0 (Some 10%Z) None]),
             Some [latlon 0 0; latlon 10 10; latlon 0 20]).
Proof. repeat split; reflexivity. Qed.

(** The fallback grid is a simple graph without coordinate attributes.
    With an OSMnx that lacks [nearest_nodes] the shortest search walks
    it; the fastest and the safest search give up on
    [G.edges(keys=True, ...)], and with [nearest_nodes] the resolution
    itself fails. *)
Example grid_searches :
  run_map snd (compute_shortest_path (O := legacy plane)
                 (Some (build_grid_graph 10)) (latlon 0 0) (latlon 0 2) d_length)
  = Done (Some [latlon 0 0; latlon 0 1; latlon 0 2])
  /\ run_map snd (compute_fastest_path (O := legacy plane)
                    (Some (build_grid_graph 10)) (latlon 0 0) (latlon 0 2))
     = Done None
  /\ run_map snd (compute_safest_path (O := legacy plane)
                    (Some (build_grid_graph 10)) (latlon 0 0) (latlon 0 2))
     = Done None
  /\ run_map snd (compute_shortest_path (O := offline plane)
                    (Some (build_grid_graph 10)) (latlon 0 0) (latlon 0 2) d_length)
     = Done None.
Proof.
  split; [vm_compute; reflexivity|].
  split; [vm_compute; reflexivity|].
  split; vm_compute; reflexivity.
Qed.

(** *** Witnesses *)

Lemma nodes_to_coords_length_witness :
  [NInt 1; NInt 3] <> []
  /\ length (_nodes_to_coords triangle [NInt 1; NInt 3] (latlon 0 0) (latlon 0 20))
     = length [NInt 1; NInt 3].
Proof.
  split; [discriminate|].
  apply (@nodes_to_coords_length plane triangle [NInt 1; NInt 3]).
  discriminate.
Defined.

Lemma fastest_time_written_witness :
  is_multigraph one_road = true
  /\ exists g' r,
       compute_fastest_path (O := offline plane) (Some one_road)
         (latlon 0 0) (latlon 0 10) = Done (Some g', r)
       /\ nodes g' = nodes one_road
       /\ Forall2 (fun e e' =>
            same_but_time e e' /\ time_rule (edata e) (d_time (edata e')))
          (edges one_road) (edges g').
Proof.
  split; [reflexivity|].
  apply (@fastest_time_written plane (offline plane) one_road). reflexivity.
Defined.

Lemma two_islands_apart : ~ reachable two_islands (NInt 1) (NInt 4).
Proof.
  intros Hr.
  apply (@closed_under_reachable plane two_islands
           (fun n => node_eqb n (NInt 1) || node_eqb n (NInt 2))) in Hr;
    [discriminate Hr | reflexivity | reflexivity].
Defined.

Lemma no_path_outcome_witness :
  resolve (O := offline plane) two_islands (latlon 0 0) = Ok (NInt 1)
  /\ resolve (O := offline plane) two_islands (latlon 50 10) = Ok (NInt 4)
  /\ ~ reachable two_islands (NInt 1) (NInt 4)
  /\ compute_shortest_path (O := offline plane) (Some two_islands)
       (latlon 0 0) (latlon 50 10) d_length = Done (Some two_islands, None)
  /\ (exists g', compute_fastest_path (O := offline plane) (Some two_islands)
                   (latlon 0 0) (latlon 50 10) = Done (Some g', None))
  /\ (exists g', compute_safest_path (O := offline plane) (Some two_islands)
                   (latlon 0 0) (latlon 50 10) = Done (Some g', None)).
Proof.
  split; [reflexivity|].
  split; [reflexivity|].
  split; [exact two_islands_apart|].
  apply (@no_path_outcome plane (offline plane) two_islands
           (latlon 0 0) (latlon 50 10) (NInt 1) (NInt 4)).
  - reflexivity.
  - reflexivity.
  - exact two_islands_apart.
Defined.

Lemma degenerate_equivalence_witness :
  is_multigraph triangle = true
  /\ (forall e, In e (edges triangle) ->
        d_length (edata e) <> None
        /\ get (d_hazard_penalty (edata e)) (Zq 0) = Zq 0)
  /\ exists r gs,
       compute_shortest_path (O := offline plane) (Some triangle)
         (latlon 0 0) (latlon 0 20) d_length = Done (Some triangle, r)
       /\ compute_safest_path (O := offline plane) (Some triangle)
            (latlon 0 0) (latlon 0 20) = Done (Some gs, r).
Proof.
  assert (forall e, In e (edges triangle) ->
            d_length (edata e) <> None
            /\ get (d_hazard_penalty (edata e)) (Zq 0) = Zq 0) as Hall.
  { intros e [<-|[<-|[<-|[]]]]; (split; [discriminate | reflexivity]). }
  split; [reflexivity|].
  split; [exact Hall|].
  apply (@degenerate_equivalence plane (offline plane) triangle
           (latlon 0 0) (latlon 0 20)).
  - reflexivity.
  - exact Hall.
Defined.

(** *** Witnesses for the further properties *)

Lemma Zq_nonneg (z : Z) : (0 <= z)%Z -> (Zq 0 <= Zq z)%Qc.
Proof.
  intros Hz. unfold Qcle, Zq, Q2Qc. cbn [this]. rewrite !Qred_correct.
  unfold Qle. simpl. lia.
Qed.

(** A hazard far away from the sample graphs. *)
Definition far_away : @Polygon plane := (pt 100 100, pt 110 110).

Lemma triangle_lengths : lengths_nonnegative triangle.
Proof.
  intros e len [<-|[<-|[<-|[]]]] [= <-]; now apply Zq_nonneg.
Defined.

Lemma triangle_penalties : penalties_nonnegative triangle.
Proof.
  intros e hp [<-|[<-|[<-|[]]]]; discriminate.
Defined.

Lemma triangle_no_parallel : no_parallel_edges triangle.
Proof.
  split.
  - repeat constructor; simpl; intuition discriminate.
  - intros e1 e2 [<-|[<-|[<-|[]]]] [<-|[<-|[<-|[]]]] H;
      try reflexivity; discriminate H.
Defined.

Lemma triangle_reachable : reachable triangle (NInt 1) (NInt 3).
Proof.
  apply reach_step with (v := NInt 1); [constructor|].
  exists (road 1 3 0 (Some 15%Z) None). split; [simpl; tauto | reflexivity].
Defined.

Lemma shortest_route_cheapest_witness :
  lengths_nonnegative triangle
  /\ compute_shortest_path (O := offline plane) (Some triangle)
       (latlon 0 0) (latlon 0 20) d_length
     = Done (Some triangle, Some [latlon 0 0; latlon 0 20])
  /\ cheapest_route (O := offline plane) triangle d_length
       (latlon 0 0) (latlon 0 20) [latlon 0 0; latlon 0 20].
Proof.
  split; [exact triangle_lengths|]. split; [reflexivity|].
  apply (@shortest_route_cheapest plane (offline plane) triangle).
  - exact triangle_lengths.
  - reflexivity.
Defined.

Lemma fastest_route_cheapest_witness :
  lengths_nonnegative triangle
  /\ compute_fastest_path (O := offline plane) (Some triangle)
       (latlon 0 0) (latlon 0 20)
     = Done (Some (relabel (fun data => set_time data (travel_time data))
                     triangle),
             Some [latlon 0 0; latlon 0 20])
  /\ cheapest_route (O := offline plane)
       (relabel (fun data => set_time data (travel_time data)) triangle)
       d_time (latlon 0 0) (latlon 0 20) [latlon 0 0; latlon 0 20].
Proof.
  split; [exact triangle_lengths|]. split; [reflexivity|].
  apply (@fastest_route_cheapest plane (offline plane) triangle).
  - exact triangle_lengths.
  - reflexivity.
Defined.

Lemma safest_route_cheapest_witness :
  lengths_nonnegative triangle /\ penalties_nonnegative triangle
  /\ compute_safest_path (O := offline plane) (Some triangle)
       (latlon 0 0) (latlon 0 20)
     = Done (Some (relabel (fun data => set_safe_weight data (safe_cost data))
                     triangle),
             Some [latlon 0 0; latlon 0 20])
  /\ cheapest_route (O := offline plane)
       (relabel (fun data => set_safe_weight data (safe_cost data)) triangle)
       d_safe_weight (latlon 0 0) (latlon 0 20) [latlon 0 0; latlon 0 20].
Proof.
  split; [exact triangle_lengths|]. split; [exact triangle_penalties|].
  split; [reflexivity|].
  apply (@safest_route_cheapest plane (offline plane) triangle).
  - exact triangle_lengths.
  - exact triangle_penalties.
  - reflexivity.
Defined.

Lemma routes_found_witness :
  lengths_nonnegative triangle
  /\ resolve (O := offline plane) triangle (latlon 0 0) = Ok (NInt 1)
  /\ resolve (O := offline plane) triangle (latlon 0 20) = Ok (NInt 3)
  /\ has_node triangle (NInt 1) = true
  /\ reachable triangle (NInt 1) (NInt 3)
  /\ (exists coords,
        compute_shortest_path (O := offline plane) (Some triangle)
          (latlon 0 0) (latlon 0 20) d_length
        = Done (Some triangle, Some coords))
  /\ (is_multigraph triangle = true ->
      exists g' coords,
        compute_fastest_path (O := offline plane) (Some triangle)
          (latlon 0 0) (latlon 0 20) = Done (Some g', Some coords))
  /\ (is_multigraph triangle = true -> penalties_nonnegative triangle ->
      exists g' coords,
        compute_safest_path (O := offline plane) (Some triangle)
          (latlon 0 0) (latlon 0 20) = Done (Some g', Some coords)).
Proof.
  split; [exact triangle_lengths|].
  split; [reflexivity|]. split; [reflexivity|]. split; [reflexivity|].
  split; [exact triangle_reachable|].
  apply (@routes_found plane (offline plane) triangle
           (latlon 0 0) (latlon 0 20) (NInt 1) (NInt 3)).
  - exact triangle_lengths.
  - reflexivity.
  - reflexivity.
  - reflexivity.
  - exact triangle_reachable.
Defined.

Lemma route_ends_witness :
  compute_shortest_path (O := offline plane) (Some triangle)
    (latlon 0 0) (latlon 0 20) d_length
  = Done (Some triangle, Some [latlon 0 0; latlon 0 20])
  /\ exists on tn,
       resolve (O := offline plane) triangle (latlon 0 0) = Ok on
       /\ resolve (O := offline plane) triangle (latlon 0 20) = Ok tn
       /\ hd_error [latlon 0 0; latlon 0 20]
          = Some (coord_of_node triangle (latlon 0 0) on)
       /\ last [latlon 0 0; latlon 0 20] (latlon 0 0)
          = coord_of_node triangle (latlon 0 0) tn.
Proof.
  split; [reflexivity|].
  apply (@route_ends plane (offline plane) triangle
           (latlon 0 0) (latlon 0 20) d_length).
  reflexivity.
Defined.

Lemma block_edges_nothing_to_block_witness :
  (forall e, In e (edges triangle) -> in_hazard triangle [far_away] e = false)
  /\ block_edges_by_hazards (Some triangle) (Some [far_away])
     = (Some triangle, 0%Z).
Proof.
  assert (forall e, In e (edges triangle) ->
            in_hazard triangle [far_away] e = false) as Hm.
  { intros e [<-|[<-|[<-|[]]]]; reflexivity. }
  split; [exact Hm|].
  apply (@block_edges_nothing_to_block plane triangle [far_away]). exact Hm.
Defined.

Lemma block_edges_simple_sound_witness :
  no_parallel_edges triangle
  /\ exists g' blocked,
       block_edges_by_hazards (Some triangle) (Some [(pt 5 (-1), pt 15 1)])
       = (Some g', blocked)
       /\ (forall e, In e (edges triangle) -> ~ In e (edges g') ->
             in_hazard triangle [(pt 5 (-1), pt 15 1)] e = true)
       /\ (forall e, In e (edges g') ->
             In e (edges triangle)
             /\ in_hazard triangle [(pt 5 (-1), pt 15 1)] e = false).
Proof.
  split; [exact triangle_no_parallel|].
  apply (@block_edges_simple_sound plane triangle [(pt 5 (-1), pt 15 1)]).
  exact triangle_no_parallel.
Defined.

Lemma block_edges_simple_idempotent_witness :
  no_parallel_edges triangle
  /\ exists g' blocked,
       block_edges_by_hazards (Some triangle) (Some [(pt 5 (-1), pt 15 1)])
       = (Some g', blocked)
       /\ block_edges_by_hazards (Some g') (Some [(pt 5 (-1), pt 15 1)])
          = (Some g', 0%Z).
Proof.
  split; [exact triangle_no_parallel|].
  apply (@block_edges_simple_idempotent plane triangle [(pt 5 (-1), pt 15 1)]).
  exact triangle_no_parallel.
Defined.

Lemma safest_weight_written_witness :
  is_multigraph one_road = true
  /\ exists g' r,
       compute_safest_path (O := offline plane) (Some one_road)
         (latlon 0 0) (latlon 0 10) = Done (Some g', r)
       /\ nodes g' = nodes one_road
       /\ Forall2 (fun e e' =>
            same_but_safe_weight e e'
            /\ d_safe_weight (edata e')
               = Some (get (d_length (edata e)) (Zq 100)
                       * (Zq 1 + get (d_hazard_penalty (edata e)) (Zq 0)))%Qc
            /\ (get (d_hazard_penalty (edata e)) (Zq 0) = Zq 0 ->
                d_safe_weight (edata e')
                = Some (get (d_length (edata e)) (Zq 100))))
          (edges one_road) (edges g').
Proof.
  split; [reflexivity|].
  apply (@safest_weight_written plane (offline plane) one_road). reflexivity.
Defined.

Lemma weighted_searches_need_multigraph_witness :
  is_multigraph (build_grid_graph 10) = false
  /\ compute_fastest_path (O := legacy plane) (Some (build_grid_graph 10))
       (latlon 0 0) (latlon 0 2)
     = Done (Some (build_grid_graph 10), None)
  /\ compute_safest_path (O := legacy plane) (Some (build_grid_graph 10))
       (latlon 0 0) (latlon 0 2)
     = Done (Some (build_grid_graph 10), None).
Proof.
  split; [reflexivity|].
  apply (@weighted_searches_need_multigraph plane (legacy plane)
           (build_grid_graph 10)).
  reflexivity.
Defined.

Lemma searches_independent_witness :
  compute_fastest_path (O := offline plane) (Some triangle)
    (latlon 0 0) (latlon 0 20)
  = Done (Some (relabel (fun data => set_time data (travel_time data)) triangle),
          Some [latlon 0 0; latlon 0 20])
  /\ compute_safest_path (O := offline plane) (Some triangle)
       (latlon 0 0) (latlon 0 20)
     = Done (Some (relabel (fun data => set_safe_weight data (safe_cost data))
                     triangle),
             Some [latlon 0 0; latlon 0 20])
  /\ run_map snd (compute_shortest_path (O := offline plane)
                    (Some (relabel (fun data => set_time data (travel_time data))
                             triangle))
                    (latlon 0 0) (latlon 0 20) d_length)
     = run_map snd (compute_shortest_path (O := offline plane) (Some triangle)
                      (latlon 0 0) (latlon 0 20) d_length)
  /\ run_map snd (compute_shortest_path (O := offline plane)
                    (Some (relabel
                             (fun data => set_safe_weight data (safe_cost data))
                             triangle))
                    (latlon 0 0) (latlon 0 20) d_length)
     = run_map snd (compute_shortest_path (O := offline plane) (Some triangle)
                      (latlon 0 0) (latlon 0 20) d_length)
  /\ run_map snd (compute_safest_path (O := offline plane)
                    (Some (relabel (fun data => set_time data (travel_time data))
                             triangle))
                    (latlon 0 0) (latlon 0 20))
     = Done (Some [latlon 0 0; latlon 0 20])
  /\ run_map snd (compute_fastest_path (O := offline plane)
                    (Some (relabel
                             (fun data => set_safe_weight data (safe_cost data))
                             triangle))
                    (latlon 0 0) (latlon 0 20))
     = Done (Some [latlon 0 0; latlon 0 20]).
Proof.
  split; [reflexivity|]. split; [reflexivity|].
  apply (@searches_independent plane (offline plane) triangle); reflexivity.
Defined.
